(** * The ECDSA builtin of the Cairo VM (pkg/vm/builtins/ecdsa.go)

    A shallow embedding of the builtin's checked write, its public key
    recovery, its signature registry and its private input export, the
    properties of them that the specification states, and further
    properties that the code itself shows. *)

From Stdlib Require Import ZArith Lia List Znumtheory Zcong.
From Stdlib Require Import Strings.String Strings.Ascii Strings.Byte.
From Stdlib Require Zmod.ZmodInv.
From stdpp Require Import base option list gmap.

Local Open Scope Z_scope.

(** ** Machine integers

    [uint64] values are integers in [0, 2^64); every arithmetic operation
    of the source is written with its wrap-around. *)

Definition uint64_limit : Z := 2 ^ 64.

Definition is_uint64 (z : Z) : Prop := 0 <= z < uint64_limit.

Definition wrap64 (z : Z) : Z := z mod uint64_limit.

Definition add64 (a b : Z) : Z := wrap64 (a + b).
Definition sub64 (a b : Z) : Z := wrap64 (a - b).
Definition rem64 (a b : Z) : Z := a mod b.
Definition div64 (a b : Z) : Z := a / b.

(** [int(idx)] on a 64-bit platform: the same bits read as a signed value. *)
Definition int_of_uint64 (u : Z) : Z :=
  if u <? 2 ^ 63 then u else u - uint64_limit.

Definition ECDSAName : string := "ecdsa".
Definition inputCellsPerECDSA : Z := 2.
Definition cellsPerECDSA : Z := 2.
Definition instancesPerComponentECDSA : Z := 1.

(** ** Bytes and big integers *)

Definition byte_of_Z (z : Z) : byte :=
  match Byte.of_N (Z.to_N (z mod 256)) with
  | Some b => b
  | None => "000"%byte
  end.

Definition Z_of_byte (b : byte) : Z := Z.of_N (Byte.to_N b).

(** [big.Int.SetBytes]: the bytes read as a big-endian unsigned integer. *)
Definition big_SetBytes (bs : list byte) : Z :=
  fold_left (fun acc b => acc * 256 + Z_of_byte b) bs 0.

(** The [n] low-order bytes of [v], most significant first. *)
Fixpoint be_bytes (n : nat) (v : Z) : list byte :=
  match n with
  | O => []
  | S k => be_bytes k (v / 256) ++ [byte_of_Z v]
  end.

(** [big.Int.ModInverse g n] for [n > 0]: the inverse of [g] in [0, n), or
    nil ([None]) when [g] and [n] are not relatively prime. *)
Definition big_ModInverse (g n : Z) : option Z :=
  if Z.gcd g n =? 1 then Some (Z.invmod g n) else None.

(** *** Hexadecimal rendering ([%x] of a [*big.Int]) *)

Definition hex_digit (d : Z) : ascii :=
  if d <? 10 then ascii_of_nat (Z.to_nat (48 + d))
  else ascii_of_nat (Z.to_nat (87 + d)).

Fixpoint hex_go (fuel : nat) (z : Z) (acc : string) : string :=
  match fuel with
  | O => acc
  | S f =>
      let acc' := String (hex_digit (z mod 16)) acc in
      if z / 16 =? 0 then acc' else hex_go f (z / 16) acc'
  end.

(** The digits of a non-negative integer in base 16, lower case, no padding. *)
Definition big_Text16 (z : Z) : string :=
  hex_go (S (Z.to_nat (Z.log2 z))) z EmptyString.

(** [fmt.Sprintf("0x%x", p)] for [p : *big.Int]; a nil pointer prints as
    [<nil>]. *)
Definition sprintf_0x (p : option Z) : string :=
  match p with
  | Some z => ("0x" ++ big_Text16 z)%string
  | None => "0x<nil>"%string
  end.

(** Reading a hexadecimal string back, for stating what a rendering is. *)
Definition hex_digit_value (c : ascii) : option Z :=
  let n := Z.of_nat (nat_of_ascii c) in
  if (48 <=? n) && (n <=? 57) then Some (n - 48)
  else if (97 <=? n) && (n <=? 102) then Some (n - 87)
  else None.

Fixpoint hex_value_from (acc : Z) (s : string) : option Z :=
  match s with
  | EmptyString => Some acc
  | String c rest =>
      match hex_digit_value c with
      | Some d => hex_value_from (acc * 16 + d) rest
      | None => None
      end
  end.

Definition hex_value (s : string) : option Z :=
  match s with
  | EmptyString => None
  | _ => hex_value_from 0 s
  end.

Definition no_leading_zero (s : string) : Prop :=
  s = "0"%string \/ exists c rest, s = String c rest /\ c <> "0"%char.

(** [s] is [v] written as a 0x-prefixed lower-case hexadecimal numeral with
    no padding: [hex_value] accepts only the digits 0-9 and a-f. *)
Definition HexRendering (s : string) (v : Z) : Prop :=
  exists ds, s = ("0x" ++ ds)%string /\ hex_value ds = Some v /\ no_leading_zero ds.

(** ** The base field of the curve ([fp.Element])

    A field element is its canonical representative in [0, fpModulus). *)

Definition fpModulus : Z := 2 ^ 251 + 17 * 2 ^ 192 + 1.

Definition is_felt (x : Z) : Prop := 0 <= x < fpModulus.

Definition fp_Mul (a b : Z) : Z := (a * b) mod fpModulus.
Definition fp_Add (a b : Z) : Z := (a + b) mod fpModulus.
Definition fp_Square (a : Z) : Z := fp_Mul a a.
Definition fp_Neg (a : Z) : Z := (fpModulus - a) mod fpModulus.

(** [Element.Bytes]: the value as 32 bytes, big-endian. *)
Definition fp_Bytes (a : Z) : list byte := be_bytes 32 a.

(** [Element.BigInt]: the value as an arbitrary-precision integer. *)
Definition fp_BigInt (a : Z) : Z := a mod fpModulus.

(** The order of the scalar field, the constant of [GetAirPrivateInput]. *)
Definition frModulusBig : Z :=
  3618502788666131213697322783095070105526743751716087489154079457884512865583.

(** ** Errors *)

Inductive MemoryError : Type :=
  | NotAFieldElement
  | UnknownCell (offset : Z).

Inductive Error : Type :=
  | InvalidPublicKey                  (* "invalid Public key" *)
  | KeyNotOnCurve                     (* "key is not on curve" *)
  | MissingSignature                  (* "signature is missing from ECDSA builtin" *)
  | InvalidSignature                  (* "signature is not valid" *)
  | CantInferValue                    (* "can't infer value" *)
  | MemoryFailure (e : MemoryError)   (* returned by the memory package *)
  | VerifyFailure (msg : string)      (* returned by ecdsa.PublicKey.Verify *)
  | EncodingError (msg : string).     (* returned by ecdsa.Signature.SetBytes *)

(** A value, or the error returned in its place. *)
Inductive Outcome (E A : Type) : Type :=
  | Ok (a : A)
  | Err (e : E).
Arguments Ok {E A} a.
Arguments Err {E A} e.

(** What the builtin returns; the two libraries report their errors as
    messages, the memory package as a [MemoryError]. *)
Abbreviation Result := (Outcome Error).
Abbreviation LibResult := (Outcome string).
Abbreviation MemResult := (Outcome MemoryError).

Definition from_memory {A} (r : MemResult A) : Result A :=
  match r with Ok a => Ok a | Err e => Err (MemoryFailure e) end.

Definition from_verify {A} (r : LibResult A) : Result A :=
  match r with Ok a => Ok a | Err msg => Err (VerifyFailure msg) end.

Definition from_decoding {A} (r : LibResult A) : Result A :=
  match r with Ok a => Ok a | Err msg => Err (EncodingError msg) end.

(** ** Signatures *)

(** [ecdsa.Signature]: the two 32-byte arrays R and S. *)
Record Signature : Type := mkSignature {
  sig_R : list byte;
  sig_S : list byte
}.

(** [Signature.Bytes]: R followed by S. *)
Definition sig_Bytes (sig : Signature) : list byte := sig_R sig ++ sig_S sig.

(** ** Memory cells and segments *)

Inductive CellKind : Type := UnknownKind | FeltKind | AddressKind.

(** Modelled from the spec: the memory package is outside the file under
    study. A cell is unknown or holds a known value (section 3); the calls
    the builtin makes on it fix the rest: [Known], a [FieldElement] that can
    refuse, and the [Felt] field. *)
Record MemoryValue : Type := mkMemoryValue {
  Felt : Z;
  Kind : CellKind
}.

Definition UnknownValue : MemoryValue := mkMemoryValue 0 UnknownKind.
Definition FeltValue (x : Z) : MemoryValue := mkMemoryValue x FeltKind.

Definition Known (mv : MemoryValue) : bool :=
  match Kind mv with UnknownKind => false | _ => true end.

Definition FieldElement (mv : MemoryValue) : MemResult Z :=
  match Kind mv with
  | AddressKind => Err NotAFieldElement
  | _ => Ok (Felt mv)
  end.

(** Modelled from the spec: a segment is an addressable region of cells. *)
Record Segment : Type := mkSegment {
  Data : list MemoryValue
}.

(** Modelled from the spec: [peek] is non-forcing, reports an unknown cell or
    a known value, and never fails (section 6). *)
Definition Peek (s : Segment) (offset : Z) : MemoryValue :=
  if (offset <? 0) || (Z.of_nat (length (Data s)) <=? offset) then UnknownValue
  else nth (Z.to_nat offset) (Data s) UnknownValue.

(** Modelled from the spec: [read] is forcing and fails when the cell is
    unknown (section 6). *)
Definition Read (s : Segment) (offset : Z) : MemResult MemoryValue :=
  let mv := Peek s offset in
  if Known mv then Ok mv else Err (UnknownCell offset).

(** ** The collaborators of the builtin

    The coefficients of the curve ([utils.Alpha] and [utils.Beta], declared
    outside the file, which are also the coefficients of the library's
    curve) and the three routines of the gnark-crypto library the builtin
    calls: the modular square root of the base field, ECDSA verification
    (with a nil hash function) and the decoding of a signature. *)

Class Collaborators : Type := {
  Alpha : Z;
  Beta : Z;
  Sqrt : Z -> option Z;
  Verify : Z * Z -> list byte -> list byte -> LibResult bool;
  SetBytes : list byte -> LibResult Signature
}.

(** [G1Affine.IsOnCurve]: the point (0, 0) encodes the point at infinity and
    is accepted; any other point is tested against the curve equation. *)
Definition IsInfinity (p : Z * Z) : bool :=
  (fst p mod fpModulus =? 0) && (snd p mod fpModulus =? 0).

Definition IsOnCurve `{Collaborators} (p : Z * Z) : bool :=
  if IsInfinity p then true
  else
    let left := fp_Square (snd p) in
    let right := fp_Mul (fp_Square (fst p)) (fst p) in
    let right := fp_Add right Beta in
    let right := fp_Add right (fp_Mul Alpha (fst p)) in
    left =? right.

(** ** The builtin and the world it runs in *)

Record ECDSA : Type := mkECDSA {
  Signatures : option (gmap Z Signature);   (* [None] is the nil map *)
  ratio : Z;
  stopPointer : Z
}.

(** Reading a Go map, nil or not. *)
Definition registry (e : ECDSA) : gmap Z Signature :=
  default ∅ (Signatures e).

(** The calls made on the collaborators, in the order they were made. *)
Inductive Call : Type :=
  | PeekCall (offset : Z)
  | ReadCall (offset : Z)
  | VerifyCall (key : Z * Z) (sig msg : list byte).

Record World : Type := mkWorld {
  builtin : ECDSA;
  segment : Segment;
  calls : list Call
}.

(** Computations that read and write the world. *)
Definition M (A : Type) : Type := World -> A * World.

Definition ret {A} (a : A) : M A := fun w => (a, w).

Definition bind {A B} (m : M A) (k : A -> M B) : M B :=
  fun w => let '(a, w') := m w in k a w'.

Definition record_call (c : Call) : M unit :=
  fun w => (tt, mkWorld (builtin w) (segment w) (calls w ++ [c])).

Notation "'let*' x ':=' m 'in' k" := (bind m (fun x => k))
  (at level 10, x pattern, m at level 200, k at level 200).
(** An error ends the computation and is handed to the caller. *)
Notation "'let?' x ':=' m 'in' k" :=
  (bind m (fun r => match r with Ok x => k | Err e => ret (Err e) end))
  (at level 10, x pattern, m at level 200, k at level 200).

Definition peek (offset : Z) : M MemoryValue :=
  let* _ := record_call (PeekCall offset) in
  fun w => (Peek (segment w) offset, w).

Definition read (offset : Z) : M (Result MemoryValue) :=
  let* _ := record_call (ReadCall offset) in
  fun w => (from_memory (Read (segment w) offset), w).

Definition lookup_signature (key : Z) : M (option Signature) :=
  fun w => (registry (builtin w) !! key, w).

Definition verify `{Collaborators} (key : Z * Z) (sig msg : list byte)
  : M (Result bool) :=
  let* _ := record_call (VerifyCall key sig msg) in
  ret (from_verify (Verify key sig msg)).

Definition get_builtin : M ECDSA := fun w => (builtin w, w).

Definition put_builtin (e : ECDSA) : M unit :=
  fun w => (tt, mkWorld e (segment w) (calls w)).

(** ** recoverY *)

Definition recoverY `{Collaborators} (x : Z) : Result (Z * Z) :=
  let ax := fp_Mul Alpha x in
  let x2 := fp_Mul x x in
  let x2 := fp_Mul x2 x in
  let x2 := fp_Add x2 ax in
  let x2 := fp_Add x2 Beta in
  match Sqrt x2 with
  | None => Err InvalidPublicKey
  | Some y => Ok (y, fp_Neg y)
  end.

(** ** CheckWrite *)

Definition CheckWrite `{Collaborators} (offset : Z) (value : option MemoryValue)
  : M (Result unit) :=
  let ecdsaIndex := rem64 offset cellsPerECDSA in
  let pubOffset := sub64 offset ecdsaIndex in
  let msgOffset := add64 pubOffset 1 in
  let* pub := peek pubOffset in
  let* msg := peek msgOffset in
  if negb (Known msg) || negb (Known pub) then ret (Ok tt)
  else
    let? pubX := ret (from_memory (FieldElement pub)) in
    let? msgField := ret (from_memory (FieldElement msg)) in
    let? (posY, negY) := ret (recoverY pubX) in
    let key := (pubX, posY) in
    if negb (IsOnCurve key) then ret (Err KeyNotOnCurve)
    else
      let* found := lookup_signature pubOffset in
      match found with
      | None => ret (Err MissingSignature)
      | Some sig =>
          let msgBytes := fp_Bytes msgField in
          let? valid := verify key (sig_Bytes sig) msgBytes in
          if negb valid then
            let key := (pubX, negY) in
            let? valid := verify key (sig_Bytes sig) msgBytes in
            if negb valid then ret (Err InvalidSignature)
            else ret (Ok tt)
          else ret (Ok tt)
      end.

Definition InferValue (offset : Z) : M (Result unit) :=
  ret (Err CantInferValue).

(** ** AddSignature *)

Definition store_signature (key : Z) (sig : Signature) : M unit :=
  fun w =>
    let e := builtin w in
    (tt, mkWorld (mkECDSA (Some (<[key := sig]> (registry e))) (ratio e) (stopPointer e))
                 (segment w) (calls w)).

Definition AddSignature `{Collaborators} (pubOffset : Z) (r s : Z) : M (Result unit) :=
  let* e := get_builtin in
  let* _ := match Signatures e with
            | None => put_builtin (mkECDSA (Some ∅) (ratio e) (stopPointer e))
            | Some _ => ret tt
            end in
  let bytes := [] in
  let rBytes := fp_Bytes r in
  let bytes := bytes ++ rBytes in
  let sBytes := fp_Bytes s in
  let bytes := bytes ++ sBytes in
  let? sig := ret (from_decoding (SetBytes bytes)) in
  let* _ := store_signature pubOffset sig in
  ret (Ok tt).

Definition String_ (e : ECDSA) : string := ECDSAName.

(** ** GetAirPrivateInput *)

Record AirPrivateBuiltinECDSASignatureInput : Type := mkSignatureInput {
  R : string;
  W : string
}.

Record AirPrivateBuiltinECDSA : Type := mkAirPrivate {
  Index : Z;
  PubKey : string;
  Msg : string;
  SignatureInput : AirPrivateBuiltinECDSASignatureInput
}.

(** The body of the loop, over the entries in the order [visit] in which the
    [range] statement hands them out. *)
Fixpoint range_Signatures (visit : list (Z * Signature))
    (values : list AirPrivateBuiltinECDSA)
  : M (list AirPrivateBuiltinECDSA * option Error) :=
  match visit with
  | [] => ret (values, None)
  | (addrOffset, signature) :: rest =>
      let idx := div64 addrOffset cellsPerECDSA in
      let* pubKey := read addrOffset in
      match pubKey with
      | Err err => ret (values, Some err)
      | Ok pubKey =>
          let* msg := read (add64 addrOffset 1) in
          match msg with
          | Err err => ret (values, Some err)
          | Ok msg =>
              let pubKeyBig := fp_BigInt (Felt pubKey) in
              let msgBig := fp_BigInt (Felt msg) in
              let pubKeyHex := sprintf_0x (Some pubKeyBig) in
              let msgHex := sprintf_0x (Some msgBig) in
              let rBig := big_SetBytes (sig_R signature) in
              let sBig := big_SetBytes (sig_S signature) in
              let wBig := big_ModInverse sBig frModulusBig in
              let signatureInput :=
                mkSignatureInput (sprintf_0x (Some rBig)) (sprintf_0x wBig) in
              let values :=
                values ++ [mkAirPrivate (int_of_uint64 idx) pubKeyHex msgHex signatureInput] in
              range_Signatures rest values
          end
      end
  end.

(** A [range] over a Go map hands out every entry once, in an order the
    language leaves open. *)
Definition range_order (m : gmap Z Signature) (visit : list (Z * Signature)) : Prop :=
  visit ≡ₚ map_to_list m.

Definition GetAirPrivateInput (visit : list (Z * Signature))
  : M (list AirPrivateBuiltinECDSA * option Error) :=
  let values := [] in
  range_Signatures visit values.

Definition GetCellsPerInstance (e : ECDSA) : Z := cellsPerECDSA.

Definition GetStopPointer (e : ECDSA) : Z := stopPointer e.

Definition SetStopPointer (stopPointer : Z) : M unit :=
  let* e := get_builtin in
  put_builtin (mkECDSA (Signatures e) (ratio e) stopPointer).

(** ** The collaborators on the Stark curve

    One realisation of [Collaborators]: the coefficients of the Stark curve,
    the square root of gnark-crypto's [fp.Element] (Tonelli and Shanks, the
    field having 2-adicity 192), a reference ECDSA verification (which
    rejects a signature whose s has no inverse) and the decoding of a
    signature whose two halves are below the scalar order. *)

Fixpoint fp_Exp_pos (x : Z) (e : positive) : Z :=
  match e with
  | xH => x mod fpModulus
  | xO e' => fp_Square (fp_Exp_pos x e')
  | xI e' => fp_Mul (fp_Square (fp_Exp_pos x e')) x
  end.

Definition fp_Exp (x e : Z) : Z :=
  match e with
  | Zpos p => fp_Exp_pos x p
  | _ => 1
  end.

(** [t] squared [n] times. *)
Fixpoint fp_Square_n (n : nat) (t : Z) : Z :=
  match n with
  | O => t
  | S k => fp_Square_n k (fp_Square t)
  end.

(** [fpModulus - 1 = 2 ^ 192 * sqrt_s] with [sqrt_s] odd. *)
Definition sqrt_r : nat := 192.
Definition sqrt_s : Z := 2 ^ 59 + 17.
Definition nonResidue : Z := 3.
Definition sqrt_g : Z := fp_Exp nonResidue sqrt_s.

(** [for !t.IsOne() { t.Square(&t); m++ }]: [None] when [fuel] squarings
    did not reach one. *)
Fixpoint squarings_to_one (fuel : nat) (t : Z) (m : nat) : option nat :=
  if t =? 1 then Some m
  else
    match fuel with
    | O => None
    | S f => squarings_to_one f (fp_Square t) (S m)
    end.

(** The main loop of [Sqrt]; the outer [None] means that [fuel] rounds did
    not finish it. *)
Fixpoint sqrt_loop (fuel : nat) (y b g : Z) (r : nat) : option (option Z) :=
  match fuel with
  | O => None
  | S f =>
      match squarings_to_one sqrt_r b 0 with
      | None => None
      | Some O => Some (Some y)
      | Some m =>
          let ge := (r - m - 1)%nat in
          let t := fp_Square_n ge g in
          let g := fp_Square t in
          let y := fp_Mul y t in
          let b := fp_Mul b g in
          sqrt_loop f y b g m
      end
  end.

Definition fp_Sqrt_fuel (fuel : nat) (x : Z) : option (option Z) :=
  let w := fp_Exp x ((sqrt_s - 1) / 2) in
  let y := fp_Mul x w in
  let b := fp_Mul w y in
  let t := fp_Square_n (sqrt_r - 1) b in
  if t =? 0 then Some (Some 0)
  else if negb (t =? 1) then Some None
  else sqrt_loop fuel y b sqrt_g sqrt_r.

(** [Element.Sqrt]: a square root, or nil ([None]) when there is none. The
    loop needs at most [sqrt_r] rounds ([fp_Sqrt_fuel_enough]). *)
Definition fp_Sqrt (x : Z) : option Z :=
  match fp_Sqrt_fuel sqrt_r x with
  | Some res => res
  | None => None
  end.

Definition starkAlpha : Z := 1.
Definition starkBeta : Z :=
  3141592653589793238462643383279502884197169399375105820974944592307816406665.

Definition fp_Sub (a b : Z) : Z := (a - b) mod fpModulus.
Definition fp_Inverse (a : Z) : Z := Z.invmod a fpModulus.

(** Points of the curve in affine coordinates; [None] is the point at
    infinity. *)
Definition ec_add (P Q : option (Z * Z)) : option (Z * Z) :=
  match P, Q with
  | None, _ => Q
  | _, None => P
  | Some (x1, y1), Some (x2, y2) =>
      let chord (l : Z) :=
        let x3 := fp_Sub (fp_Sub (fp_Square l) x1) x2 in
        Some (x3, fp_Sub (fp_Mul l (fp_Sub x1 x3)) y1) in
      if x1 =? x2 then
        if fp_Add y1 y2 =? 0 then None
        else chord (fp_Mul (fp_Add (fp_Mul 3 (fp_Square x1)) starkAlpha)
                           (fp_Inverse (fp_Mul 2 y1)))
      else chord (fp_Mul (fp_Sub y2 y1) (fp_Inverse (fp_Sub x2 x1)))
  end.

Fixpoint ec_mul_pos (k : positive) (P : option (Z * Z)) : option (Z * Z) :=
  match k with
  | xH => P
  | xO k' => let H := ec_mul_pos k' P in ec_add H H
  | xI k' => let H := ec_mul_pos k' P in ec_add (ec_add H H) P
  end.

Definition ec_mul (k : Z) (P : option (Z * Z)) : option (Z * Z) :=
  match k with
  | Zpos p => ec_mul_pos p P
  | _ => None
  end.

Definition starkGenerator : Z * Z :=
  (874739451078007766457464989774322083649278607533249481151382481072868806602,
   152666792071518830868575557812948353041420400780739481342941381225525861407).

Definition sizeFr : nat := 32.
Definition sizeFrBits : Z := 252.

Definition big_BitLen (z : Z) : Z := if z =? 0 then 0 else Z.log2 z + 1.

Definition HashToInt (hash : list byte) : Z :=
  let hash := firstn sizeFr hash in
  let ret := big_SetBytes hash in
  let excess := big_BitLen ret - sizeFrBits in
  if excess >? 0 then Z.shiftr ret excess else ret.

(** [Signature.SetBytes]: R then S, each below the order of the scalar
    field. *)
Definition stark_SetBytes (buf : list byte) : LibResult Signature :=
  if (length buf <? 2 * sizeFr)%nat then Err "short buffer"%string
  else
    let rb := firstn sizeFr buf in
    let sb := firstn sizeFr (skipn sizeFr buf) in
    if frModulusBig <=? big_SetBytes rb then Err "r is bigger than r_mod"%string
    else if frModulusBig <=? big_SetBytes sb then Err "s is bigger than r_mod"%string
    else Ok (mkSignature rb sb).

(** [PublicKey.Verify] with a nil hash function: the message bytes are the
    hash. *)
Definition stark_Verify (key : Z * Z) (sigBin message : list byte) : LibResult bool :=
  match stark_SetBytes sigBin with
  | Err e => Err e
  | Ok sig =>
      let r := big_SetBytes (sig_R sig) in
      let s := big_SetBytes (sig_S sig) in
      match big_ModInverse s frModulusBig with
      | None => Ok false
      | Some sInv =>
          let m := HashToInt message in
          let u1 := (m * sInv) mod frModulusBig in
          let u2 := (r * sInv) mod frModulusBig in
          match ec_add (ec_mul u1 (Some starkGenerator)) (ec_mul u2 (Some key)) with
          | None => Ok false
          | Some (ux, _) => Ok (ux mod frModulusBig =? r)
          end
      end
  end.

#[export] Instance stark : Collaborators := {|
  Alpha := starkAlpha;
  Beta := starkBeta;
  Sqrt := fp_Sqrt;
  Verify := stark_Verify;
  SetBytes := stark_SetBytes
|}.

(** ** Test data

    A point of the curve whose square root takes one round of the loop, and
    for each of its two ordinates a signature [(r, r)] of the message hash
    [r], where [r] is the abscissa of the generator plus the point. *)

Definition test_x : Z :=
  2699497872909607819387548946840001004796458720616878489269901129130894503677.
Definition test_posY : Z :=
  1491567984987153047701704058515867933068844412915246070828013043495676845753.
Definition test_negY : Z :=
  2126934803678978165995618724579202172554262802416350629145079012640195174728.
(** Valid for [(test_x, test_posY)] only. *)
Definition test_r_pos : Z :=
  1798838257662862516404007953803585019125623866577783907565749291104198009398.
(** Valid for [(test_x, test_negY)] only. *)
Definition test_r_neg : Z :=
  2672170450550355681446269862868748618695111518818376497770758198303581967941.

Definition test_sig (r : Z) : Signature := mkSignature (fp_Bytes r) (fp_Bytes r).

(** The instance at offsets 0 and 1 written, a signature registered for it. *)
Definition test_world (msg : Z) (sig : option Signature) : World :=
  mkWorld (mkECDSA (match sig with Some s => Some {[ 0 := s ]} | None => None end) 1 0)
          (mkSegment [FeltValue test_x; FeltValue msg])
          [].

(** Worlds for the examples: an instance of which one cell only is written,
    a registry of two entries over four cells, and a signature whose s is
    zero. *)
Definition world_pub_only : World :=
  mkWorld (mkECDSA None 1 0) (mkSegment [FeltValue test_x]) [].

Definition world_msg_only : World :=
  mkWorld (mkECDSA None 1 0) (mkSegment [UnknownValue; FeltValue test_r_pos]) [].

Definition export_world (first second : Signature) : World :=
  mkWorld (mkECDSA (Some (<[0 := first]> {[ 2 := second ]})) 1 4)
          (mkSegment [FeltValue test_x; FeltValue test_r_pos;
                      FeltValue test_x; FeltValue test_r_neg])
          [].

Definition zero_s_signature : Signature :=
  mkSignature (fp_Bytes test_r_neg) (fp_Bytes 0).

(** An instance whose first cell holds an address, one whose second cell
    does, and one whose abscissa is zero, with a signature registered. *)
Definition world_address_key : World :=
  mkWorld (mkECDSA None 1 0)
          (mkSegment [mkMemoryValue 0 AddressKind; FeltValue 5]) [].

Definition world_address_msg : World :=
  mkWorld (mkECDSA None 1 0)
          (mkSegment [FeltValue test_x; mkMemoryValue 0 AddressKind]) [].

Definition world_zero_key : World :=
  mkWorld (mkECDSA (Some {[ 0 := test_sig 5 ]}) 1 0)
          (mkSegment [FeltValue 0; FeltValue 5]) [].

(** A signature whose R is not below the scalar order: the verifier
    refuses to decode it. *)
Definition oversized_signature : Signature :=
  mkSignature (fp_Bytes (fpModulus - 1)) (fp_Bytes 1).

(** Two entries, the second over a cell that was never written. *)
Definition world_three_cells : World :=
  mkWorld (mkECDSA (Some (<[0 := test_sig test_r_pos]> {[ 2 := test_sig test_r_neg ]})) 1 3)
          (mkSegment [FeltValue test_x; FeltValue test_r_pos; FeltValue test_x])
          [].

(** ** The vocabulary of the properties *)

(** The first cell of the instance that [offset] falls in. *)
Definition instance_base (offset : Z) : Z := offset - offset mod 2.

(** The world after further calls on the collaborators. *)
Definition after_calls (w : World) (cs : list Call) : World :=
  mkWorld (builtin w) (segment w) (calls w ++ cs).

Definition peeks (offset : Z) : list Call :=
  [PeekCall (instance_base offset); PeekCall (instance_base offset + 1)].

(** The right-hand side of the curve equation, in plain arithmetic. *)
Definition curve_rhs `{Collaborators} (x : Z) : Z :=
  (x ^ 3 + Alpha * x + Beta) mod fpModulus.

(** What the field library promises of [Sqrt]: a returned value is a reduced
    square root, and nil is returned only when there is none. *)
Class SqrtContract `{Collaborators} : Prop := {
  Sqrt_sound : forall a y,
    Sqrt a = Some y -> is_felt y /\ (y * y) mod fpModulus = a mod fpModulus;
  Sqrt_complete : forall a,
    Sqrt a = None -> forall y, (y * y) mod fpModulus <> a mod fpModulus
}.

(** Congruence modulo the field prime, with the ring operations as
    morphisms, so that reductions inside a term can be dropped. *)
Definition fp_eq (a b : Z) : Prop := a mod fpModulus = b mod fpModulus.

(** What the record made for a registry entry says. *)
Definition exported (seg : Segment) (entry : Z * Signature)
    (rec : AirPrivateBuiltinECDSA) : Prop :=
  let base := fst entry in
  let s := big_SetBytes (sig_S (snd entry)) in
  Index rec = base / 2 /\
  HexRendering (PubKey rec) (fp_BigInt (Felt (Peek seg base))) /\
  HexRendering (Msg rec) (fp_BigInt (Felt (Peek seg (base + 1)))) /\
  HexRendering (R (SignatureInput rec)) (big_SetBytes (sig_R (snd entry))) /\
  (Z.gcd s frModulusBig = 1 ->
   exists w, HexRendering (W (SignatureInput rec)) w /\
             0 <= w < frModulusBig /\ (s * w) mod frModulusBig = 1) /\
  (Z.gcd s frModulusBig <> 1 ->
   W (SignatureInput rec) = "0x<nil>"%string).

(** The cells of every visited entry are known. *)
Definition cells_known (seg : Segment) (visit : list (Z * Signature)) : Prop :=
  forall base sig, (base, sig) ∈ visit ->
    Known (Peek seg base) = true /\ Known (Peek seg (base + 1)) = true.

Definition reads (visit : list (Z * Signature)) : list Call :=
  flat_map (fun entry => [ReadCall (fst entry); ReadCall (fst entry + 1)]) visit.

(** A collaborator whose square root answers one whatever it is asked: it
    breaks the contract, and shows what the on-curve test is there for. *)
Definition careless : Collaborators := {|
  Alpha := starkAlpha;
  Beta := starkBeta;
  Sqrt := fun _ => Some 1;
  Verify := stark_Verify;
  SetBytes := stark_SetBytes
|}.

(** * Properties *)

(** ** Instance addresses *)

Lemma pubOffset_no_wrap offset :
  is_uint64 offset ->
  sub64 offset (rem64 offset cellsPerECDSA) = instance_base offset.
Proof.
  unfold is_uint64, sub64, rem64, wrap64, cellsPerECDSA, instance_base, uint64_limit.
  intros Hoff. apply Z.mod_small.
  pose proof (Z.mod_pos_bound offset 2).
  pose proof (Z.mod_le offset 2). lia.
Qed.

Lemma msgOffset_no_wrap offset :
  is_uint64 offset ->
  add64 (instance_base offset) 1 = instance_base offset + 1.
Proof.
  unfold is_uint64, add64, wrap64, instance_base, uint64_limit.
  intros Hoff. apply Z.mod_small.
  pose proof (Z.mod_pos_bound offset 2).
  pose proof (Z.div_mod offset 2).
  assert (offset / 2 < 2 ^ 63) by (apply Z.div_lt_upper_bound; lia).
  lia.
Qed.

Lemma instance_base_even offset : instance_base offset mod 2 = 0.
Proof.
  unfold instance_base.
  rewrite Zminus_mod, Z.mod_mod, Z.sub_diag by lia. reflexivity.
Qed.

Lemma instance_base_of_pair offset :
  instance_base (instance_base offset) = instance_base offset /\
  instance_base (instance_base offset + 1) = instance_base offset.
Proof.
  pose proof (instance_base_even offset) as He.
  unfold instance_base in *.
  pose proof (Z.div_mod offset 2).
  split.
  - rewrite He. lia.
  - replace ((offset - offset mod 2 + 1) mod 2) with 1; [lia|].
    rewrite Z.add_mod, He by lia. reflexivity.
Qed.

(** ** Running CheckWrite *)

Ltac run_monad :=
  cbv beta delta [bind peek read record_call ret lookup_signature verify
                  get_builtin put_builtin store_signature after_calls peeks];
  cbn [fst snd builtin segment calls].

Lemma app_calls {A} (l : list A) a b : (l ++ [a]) ++ [b] = l ++ [a; b].
Proof. now rewrite <- app_assoc. Qed.

Lemma app_calls3 {A} (l : list A) a b c : (l ++ [a; b]) ++ [c] = l ++ [a; b; c].
Proof. now rewrite <- app_assoc. Qed.

Section CheckWriteFacts.
Context `{C : Collaborators}.

(** Once both cells hold field elements, the rest is decided by the
    recovered ordinates, the registry and the two verifications. *)
Lemma CheckWrite_both_known offset value w pub msg x m :
  is_uint64 offset ->
  Peek (segment w) (instance_base offset) = pub ->
  Peek (segment w) (instance_base offset + 1) = msg ->
  Known pub = true -> Known msg = true ->
  FieldElement pub = Ok x -> FieldElement msg = Ok m ->
  CheckWrite offset value w =
    let w2 := after_calls w (peeks offset) in
    match recoverY x with
    | Err e => (Err e, w2)
    | Ok (posY, negY) =>
        if negb (IsOnCurve (x, posY)) then (Err KeyNotOnCurve, w2)
        else
          match registry (builtin w) !! instance_base offset with
          | None => (Err MissingSignature, w2)
          | Some sig =>
              let sb := sig_Bytes sig in
              let mb := fp_Bytes m in
              let w3 := after_calls w (peeks offset ++ [VerifyCall (x, posY) sb mb]) in
              match Verify (x, posY) sb mb with
              | Err e => (Err (VerifyFailure e), w3)
              | Ok true => (Ok tt, w3)
              | Ok false =>
                  let w4 := after_calls w (peeks offset ++
                              [VerifyCall (x, posY) sb mb; VerifyCall (x, negY) sb mb]) in
                  match Verify (x, negY) sb mb with
                  | Err e => (Err (VerifyFailure e), w4)
                  | Ok true => (Ok tt, w4)
                  | Ok false => (Err InvalidSignature, w4)
                  end
              end
          end
    end.
Proof.
  intros Hoff Hpub Hmsg Kpub Kmsg Fpub Fmsg. unfold CheckWrite.
  rewrite (pubOffset_no_wrap _ Hoff), (msgOffset_no_wrap _ Hoff).
  run_monad. rewrite app_calls, Hpub, Hmsg, Kpub, Kmsg, Fpub, Fmsg.
  cbn [negb orb from_memory].
  destruct (recoverY x) as [[posY negY]|e]; [|reflexivity].
  destruct (IsOnCurve (x, posY)); cbn [negb]; [|reflexivity].
  cbn [builtin segment calls].
  destruct (registry (builtin w) !! instance_base offset) as [sig|]; [|reflexivity].
  cbn [app builtin segment calls]. rewrite app_calls3.
  destruct (Verify (x, posY) _ _) as [[|]|e]; cbn [negb from_verify]; try reflexivity.
  cbn [builtin segment calls]. rewrite <- app_assoc. cbn [app].
  destruct (Verify (x, negY) _ _) as [[|]|e]; reflexivity.
Qed.
End CheckWriteFacts.

(** ** The curve equation and the contract of the square root *)

Lemma fpModulus_pos : 0 < fpModulus.
Proof. reflexivity. Qed.

Lemma fpModulus_neq_0 : fpModulus <> 0.
Proof. discriminate. Qed.

#[local] Hint Resolve fpModulus_neq_0 : core.

#[local] Instance fp_eq_equivalence : Equivalence fp_eq.
Proof.
  split; unfold fp_eq; [intros a | intros a b | intros a b c]; congruence.
Qed.

#[local] Instance fp_eq_add : Proper (fp_eq ==> fp_eq ==> fp_eq) Z.add.
Proof.
  intros a a' Ha b b' Hb. unfold fp_eq in *.
  now rewrite (Zplus_mod a), (Zplus_mod a'), Ha, Hb.
Qed.

#[local] Instance fp_eq_mul : Proper (fp_eq ==> fp_eq ==> fp_eq) Z.mul.
Proof.
  intros a a' Ha b b' Hb. unfold fp_eq in *.
  now rewrite (Zmult_mod a), (Zmult_mod a'), Ha, Hb.
Qed.

#[local] Instance fp_eq_sub : Proper (fp_eq ==> fp_eq ==> fp_eq) Z.sub.
Proof.
  intros a a' Ha b b' Hb. unfold fp_eq in *.
  now rewrite (Zminus_mod a), (Zminus_mod a'), Ha, Hb.
Qed.

Lemma fp_eq_mod a : fp_eq (a mod fpModulus) a.
Proof. unfold fp_eq. apply Z.mod_mod. exact fpModulus_neq_0. Qed.

Lemma fp_eq_modulus : fp_eq fpModulus 0.
Proof. reflexivity. Qed.

Ltac fp_ring :=
  unfold fp_Square, fp_Mul, fp_Add, fp_Sub, fp_Neg;
  match goal with
  | |- ?a mod fpModulus = ?b mod fpModulus => change (fp_eq a b)
  | |- fp_eq _ _ => idtac
  end;
  rewrite ?fp_eq_mod; unfold fp_eq; f_equal; ring.

Lemma fp_Neg_square y :
  (fp_Neg y * fp_Neg y) mod fpModulus = (y * y) mod fpModulus.
Proof.
  unfold fp_Neg. change (fp_eq (((fpModulus - y) mod fpModulus) * ((fpModulus - y) mod fpModulus)) (y * y)).
  rewrite !fp_eq_mod, fp_eq_modulus. unfold fp_eq. f_equal. ring.
Qed.

Lemma fp_Neg_felt y : is_felt (fp_Neg y).
Proof. apply Z.mod_pos_bound. exact fpModulus_pos. Qed.

(** A value and its negation add up to zero in the field. *)
Lemma fp_Neg_sum y : (y + fp_Neg y) mod fpModulus = 0.
Proof.
  unfold fp_Neg. change (fp_eq (y + (fpModulus - y) mod fpModulus) 0).
  rewrite fp_eq_mod. replace (y + (fpModulus - y)) with fpModulus by ring.
  exact fp_eq_modulus.
Qed.

Section Curve.
Context `{C : Collaborators}.

(** The value [recoverY] hands to [Sqrt]. *)
Lemma recoverY_radicand x :
  fp_Add (fp_Add (fp_Mul (fp_Mul x x) x) (fp_Mul Alpha x)) Beta = curve_rhs x.
Proof. unfold curve_rhs. fp_ring. Qed.

Lemma curve_rhs_reduced x : curve_rhs x mod fpModulus = curve_rhs x.
Proof. unfold curve_rhs. now rewrite Z.mod_mod. Qed.

Lemma recoverY_unfold x :
  recoverY x =
    match Sqrt (curve_rhs x) with
    | None => Err InvalidPublicKey
    | Some y => Ok (y, fp_Neg y)
    end.
Proof. unfold recoverY. now rewrite recoverY_radicand. Qed.

Lemma IsOnCurve_of_equation x y :
  (y * y) mod fpModulus = curve_rhs x -> IsOnCurve (x, y) = true.
Proof.
  intros Heq. unfold IsOnCurve. destruct (IsInfinity (x, y)); [reflexivity|].
  cbn [fst snd]. apply Z.eqb_eq.
  change (fp_Square y) with ((y * y) mod fpModulus). rewrite Heq.
  unfold curve_rhs. fp_ring.
Qed.

Lemma IsOnCurve_equation_or_infinity x y :
  IsOnCurve (x, y) = true ->
  (y * y) mod fpModulus = curve_rhs x \/
  (x mod fpModulus = 0 /\ y mod fpModulus = 0).
Proof.
  unfold IsOnCurve, IsInfinity. cbn [fst snd].
  destruct (x mod fpModulus =? 0) eqn:Hx, (y mod fpModulus =? 0) eqn:Hy;
    cbn [andb]; intros Hon;
    try (left; apply Z.eqb_eq in Hon;
         change (fp_Square y) with ((y * y) mod fpModulus) in Hon;
         rewrite Hon; unfold curve_rhs; fp_ring).
  right. split; now apply Z.eqb_eq.
Qed.

Lemma recoverY_on_curve `{!SqrtContract} x posY negY :
  recoverY x = Ok (posY, negY) ->
  negY = fp_Neg posY /\ is_felt posY /\
  (posY * posY) mod fpModulus = curve_rhs x /\
  IsOnCurve (x, posY) = true /\ IsOnCurve (x, negY) = true.
Proof.
  rewrite recoverY_unfold.
  destruct (Sqrt (curve_rhs x)) as [y|] eqn:Hs; [|discriminate].
  intros [= <- <-]. destruct (Sqrt_sound _ _ Hs) as [Hy Hsq].
  rewrite curve_rhs_reduced in Hsq.
  repeat split; try apply Hy; try assumption.
  - now apply IsOnCurve_of_equation.
  - apply IsOnCurve_of_equation. now rewrite fp_Neg_square.
Qed.
End Curve.

(** ** The checked write *)

Ltac case_all :=
  repeat first
    [ progress cbn [fst snd builtin segment calls negb orb from_memory from_verify]
    | match goal with
      | |- context [from_verify ?v] => destruct v eqn:?
      | |- context [from_memory ?v] => destruct v eqn:?
      | |- context [if ?b then _ else _] => destruct b eqn:?
      | |- context [match ?x with _ => _ end] => destruct x eqn:?
      end ].

(** C3: a write into an instance of which a cell is still unknown returns
    success at once: the base is [offset - offset mod 2], the two cells are
    peeked (never read), nothing is verified and nothing changes, whichever
    of the two cells is the missing one. *)
Theorem CheckWrite_awaits_both `{Collaborators} offset value w :
  is_uint64 offset ->
  let base := offset - offset mod 2 in
  Known (Peek (segment w) base) = false \/
  Known (Peek (segment w) (base + 1)) = false ->
  CheckWrite offset value w =
    (Ok tt, mkWorld (builtin w) (segment w)
                    (calls w ++ [PeekCall base; PeekCall (base + 1)])).
Proof.
  intros Hoff base Hunk. unfold CheckWrite.
  rewrite (pubOffset_no_wrap _ Hoff), (msgOffset_no_wrap _ Hoff).
  change (instance_base offset) with base.
  run_monad. rewrite app_calls.
  destruct Hunk as [-> | ->]; cbn [negb orb]; [|reflexivity].
  now rewrite orb_true_r.
Qed.

(** C8: whatever it returns, CheckWrite leaves the builtin (its registry
    included) and the memory segment as they were. *)
Theorem CheckWrite_frame `{Collaborators} offset value w :
  builtin (snd (CheckWrite offset value w)) = builtin w /\
  segment (snd (CheckWrite offset value w)) = segment w.
Proof.
  unfold CheckWrite. run_monad. case_all; split; reflexivity.
Qed.

(** C9: the written value is never looked at: two calls at the same offset
    return the same result whenever the two cells of the instance and the
    registry entry of its base agree, whatever the two values are. *)
Theorem CheckWrite_ignores_value `{Collaborators} offset v1 v2 w1 w2 :
  is_uint64 offset ->
  let base := offset - offset mod 2 in
  Peek (segment w1) base = Peek (segment w2) base ->
  Peek (segment w1) (base + 1) = Peek (segment w2) (base + 1) ->
  registry (builtin w1) !! base = registry (builtin w2) !! base ->
  fst (CheckWrite offset v1 w1) = fst (CheckWrite offset v2 w2).
Proof.
  intros Hoff base Hpub Hmsg Hreg. unfold CheckWrite.
  rewrite (pubOffset_no_wrap _ Hoff), (msgOffset_no_wrap _ Hoff).
  run_monad. change (instance_base offset) with base. rewrite Hpub, Hmsg.
  destruct (negb (Known _) || negb (Known _)); [reflexivity|].
  destruct (FieldElement _) as [x|e]; cbn [from_memory]; [|reflexivity].
  destruct (FieldElement _) as [m|e]; cbn [from_memory]; [|reflexivity].
  destruct (recoverY x) as [[posY negY]|e]; [|reflexivity].
  destruct (negb (IsOnCurve _)); [reflexivity|].
  cbn [fst snd builtin segment calls]. rewrite Hreg.
  case_all; reflexivity.
Qed.

(** C4: with both cells known field elements, an abscissa that passes the
    recovery and the on-curve check, and no registry entry for the base,
    CheckWrite fails with MissingSignature (and verifies nothing). *)
Theorem CheckWrite_missing_signature `{Collaborators} offset value w pub msg x m posY negY :
  is_uint64 offset ->
  let base := offset - offset mod 2 in
  Peek (segment w) base = pub -> Peek (segment w) (base + 1) = msg ->
  Known pub = true -> Known msg = true ->
  FieldElement pub = Ok x -> FieldElement msg = Ok m ->
  recoverY x = Ok (posY, negY) ->
  IsOnCurve (x, posY) = true ->
  registry (builtin w) !! base = None ->
  CheckWrite offset value w =
    (Err MissingSignature,
     mkWorld (builtin w) (segment w) (calls w ++ [PeekCall base; PeekCall (base + 1)])).
Proof.
  intros Hoff base Hpub Hmsg Kpub Kmsg Fpub Fmsg Hrec Hon Hreg.
  rewrite (CheckWrite_both_known offset value w pub msg x m) by assumption.
  cbv zeta. rewrite Hrec, Hon. cbn [negb].
  change (instance_base offset) with base. now rewrite Hreg.
Qed.

(** C1: with both cells known field elements, candidate ordinates (y, -y)
    recovered from the abscissa and a signature registered for the base,
    CheckWrite verifies under the positive ordinate first and under the
    negative one only after that failed; it succeeds when either
    verification does, and it fails with InvalidSignature exactly when both
    report an invalid signature. *)
Theorem CheckWrite_dual_candidate `{SqrtContract} offset value w pub msg x m posY negY sig :
  is_uint64 offset ->
  let base := offset - offset mod 2 in
  Peek (segment w) base = pub -> Peek (segment w) (base + 1) = msg ->
  Known pub = true -> Known msg = true ->
  FieldElement pub = Ok x -> FieldElement msg = Ok m ->
  recoverY x = Ok (posY, negY) ->
  registry (builtin w) !! base = Some sig ->
  let under y := Verify (x, y) (sig_Bytes sig) (fp_Bytes m) in
  let tried ys :=
    calls w ++ [PeekCall base; PeekCall (base + 1)]
            ++ map (fun y => VerifyCall (x, y) (sig_Bytes sig) (fp_Bytes m)) ys in
  let res := CheckWrite offset value w in
  negY = fp_Neg posY /\
  (under posY = Ok true -> fst res = Ok tt /\ calls (snd res) = tried [posY]) /\
  (under posY = Ok false -> under negY = Ok true ->
     fst res = Ok tt /\ calls (snd res) = tried [posY; negY]) /\
  (fst res = Err InvalidSignature <-> under posY = Ok false /\ under negY = Ok false).
Proof.
  intros Hoff base Hpub Hmsg Kpub Kmsg Fpub Fmsg Hrec Hreg under tried res.
  destruct (recoverY_on_curve x posY negY Hrec) as (Hneg & _ & _ & Hon & _).
  assert (Hres : res = CheckWrite offset value w) by reflexivity.
  rewrite (CheckWrite_both_known offset value w pub msg x m) in Hres by assumption.
  cbv zeta in Hres. rewrite Hrec, Hon in Hres. cbn [negb] in Hres.
  change (instance_base offset) with base in Hres.
  rewrite Hreg in Hres. fold (under posY) (under negY) in Hres.
  subst tried. unfold after_calls, peeks in Hres.
  change (instance_base offset) with base in Hres.
  split; [exact Hneg|]. rewrite Hres.
  destruct (under posY) as [[|]|e1]; [| destruct (under negY) as [[|]|e2] |];
    cbn [fst snd calls map app]; repeat split; intros; try discriminate;
    try reflexivity;
    repeat match goal with H : _ /\ _ |- _ => destruct H end; discriminate.
Qed.

(** C7: after a successful recovery CheckWrite tests the point made of the
    abscissa and the positive ordinate and fails with KeyNotOnCurve when the
    test fails; when the square root keeps its contract, the recovered point
    satisfies the curve equation and no call of CheckWrite returns that
    error. *)
Theorem KeyNotOnCurve_defensive `{C : Collaborators} :
  (forall offset value w pub msg x m posY negY,
     is_uint64 offset ->
     Peek (segment w) (offset - offset mod 2) = pub ->
     Peek (segment w) (offset - offset mod 2 + 1) = msg ->
     Known pub = true -> Known msg = true ->
     FieldElement pub = Ok x -> FieldElement msg = Ok m ->
     recoverY x = Ok (posY, negY) ->
     IsOnCurve (x, posY) = false ->
     fst (CheckWrite offset value w) = Err KeyNotOnCurve) /\
  (SqrtContract ->
     (forall x posY negY,
        recoverY x = Ok (posY, negY) ->
        (posY * posY) mod fpModulus = (x ^ 3 + Alpha * x + Beta) mod fpModulus /\
        IsOnCurve (x, posY) = true) /\
     (forall offset value w, fst (CheckWrite offset value w) <> Err KeyNotOnCurve)).
Proof.
  split.
  - intros offset value w pub msg x m posY negY Hoff Hpub Hmsg Kpub Kmsg Fpub Fmsg Hrec Hoff'.
    rewrite (CheckWrite_both_known offset value w pub msg x m) by assumption.
    cbv zeta. now rewrite Hrec, Hoff'.
  - intros Hsqrt. split.
    + intros x posY negY Hrec.
      destruct (recoverY_on_curve x posY negY Hrec) as (_ & _ & Heq & Hon & _).
      split; [exact Heq | exact Hon].
    + intros offset value w. unfold CheckWrite. run_monad.
      destruct (negb (Known _) || negb (Known _)); [discriminate|].
      destruct (FieldElement _) as [x|e]; cbn [from_memory]; [|discriminate].
      destruct (FieldElement _) as [m|e]; cbn [from_memory]; [|discriminate].
      destruct (recoverY x) as [[posY negY]|e] eqn:Hrec.
      * destruct (recoverY_on_curve x posY negY Hrec) as (_ & _ & _ & Hon & _).
        rewrite Hon. case_all; discriminate.
      * revert Hrec. rewrite recoverY_unfold.
        destruct (Sqrt (curve_rhs x)); [intros Hrec; discriminate Hrec|].
        intros [= <-]. discriminate.
Qed.

(** C2: when x^3 + ALPHA x + BETA has a square root in the field, recoverY
    returns a pair (y, -y): two reduced values that add up to zero modulo
    the field prime, and of which both squares are that number; when it has
    none, recoverY fails with InvalidPublicKey. *)
Theorem recoverY_candidates `{SqrtContract} x :
  let rhs := (x ^ 3 + Alpha * x + Beta) mod fpModulus in
  ((exists y, (y * y) mod fpModulus = rhs) ->
   exists y, recoverY x = Ok (y, fp_Neg y) /\
             is_felt y /\ is_felt (fp_Neg y) /\
             (y + fp_Neg y) mod fpModulus = 0 /\
             (y * y) mod fpModulus = rhs /\
             (fp_Neg y * fp_Neg y) mod fpModulus = rhs) /\
  ((forall y, (y * y) mod fpModulus <> rhs) ->
   recoverY x = Err InvalidPublicKey).
Proof.
  intros rhs. change rhs with (curve_rhs x). rewrite recoverY_unfold.
  destruct (Sqrt (curve_rhs x)) as [y|] eqn:Hs; split.
  - intros _. exists y. destruct (Sqrt_sound _ _ Hs) as [Hy Hsq].
    rewrite curve_rhs_reduced in Hsq.
    repeat split; try apply Hy; try apply fp_Neg_felt; try apply fp_Neg_sum;
      try assumption.
    now rewrite fp_Neg_square.
  - intros Hnone. destruct (Sqrt_sound _ _ Hs) as [_ Hsq].
    rewrite curve_rhs_reduced in Hsq. now destruct (Hnone y).
  - intros [y Hy]. destruct (Sqrt_complete _ Hs y).
    now rewrite curve_rhs_reduced.
  - reflexivity.
Qed.

(** ** Bytes *)

Lemma Z_of_byte_of_Z z : Z_of_byte (byte_of_Z z) = z mod 256.
Proof.
  unfold Z_of_byte, byte_of_Z.
  pose proof (Z.mod_pos_bound z 256 eq_refl) as Hb.
  destruct (Byte.of_N (Z.to_N (z mod 256))) as [b|] eqn:Hof.
  - apply Byte.to_of_N in Hof. rewrite Hof. lia.
  - apply Byte.of_N_None_iff in Hof. lia.
Qed.

Lemma Z_of_byte_range b : 0 <= Z_of_byte b < 256.
Proof.
  unfold Z_of_byte. pose proof (Byte.to_N_bounded b). lia.
Qed.

Lemma big_SetBytes_snoc bs b :
  big_SetBytes (bs ++ [b]) = big_SetBytes bs * 256 + Z_of_byte b.
Proof. unfold big_SetBytes. now rewrite fold_left_app. Qed.

Lemma big_SetBytes_nonneg bs : 0 <= big_SetBytes bs.
Proof.
  induction bs as [|b bs IH] using rev_ind; [reflexivity|].
  rewrite big_SetBytes_snoc. pose proof (Z_of_byte_range b). lia.
Qed.

Lemma length_be_bytes n v : length (be_bytes n v) = n.
Proof.
  revert v. induction n as [|n IH]; intros v; cbn [be_bytes]; [reflexivity|].
  rewrite length_app, IH. cbn. lia.
Qed.

(** Decoding what was encoded on [n] bytes gives the value back, up to the
    width. *)
Lemma big_SetBytes_be_bytes n v :
  big_SetBytes (be_bytes n v) = v mod 256 ^ Z.of_nat n.
Proof.
  revert v. induction n as [|n IH]; intros v.
  - cbn. now rewrite Z.mod_1_r.
  - cbn [be_bytes]. rewrite big_SetBytes_snoc, IH, Z_of_byte_of_Z.
    rewrite Nat2Z.inj_succ, Z.pow_succ_r by lia.
    rewrite (Z.rem_mul_r v 256 (256 ^ Z.of_nat n)) by lia. lia.
Qed.

Lemma fp_Bytes_length a : length (fp_Bytes a) = 32%nat.
Proof. apply length_be_bytes. Qed.

Lemma fp_Bytes_value a : big_SetBytes (fp_Bytes a) = a mod 2 ^ 256.
Proof. unfold fp_Bytes. now rewrite big_SetBytes_be_bytes. Qed.

Lemma fp_Bytes_felt a : is_felt a -> big_SetBytes (fp_Bytes a) = a.
Proof.
  intros [Hlo Hhi]. rewrite fp_Bytes_value. apply Z.mod_small.
  split; [exact Hlo|]. eapply Z.lt_trans; [exact Hhi|]. reflexivity.
Qed.

(** ** Hexadecimal rendering *)

Lemma hex_digit_value_digit d :
  0 <= d < 16 -> hex_digit_value (hex_digit d) = Some d.
Proof.
  intros Hd.
  assert (Hcases : d = 0 \/ d = 1 \/ d = 2 \/ d = 3 \/ d = 4 \/ d = 5 \/ d = 6 \/
                   d = 7 \/ d = 8 \/ d = 9 \/ d = 10 \/ d = 11 \/ d = 12 \/
                   d = 13 \/ d = 14 \/ d = 15) by lia.
  repeat (destruct Hcases as [-> | Hcases]; [reflexivity|]).
  now subst.
Qed.

Lemma hex_digit_nonzero d :
  0 < d < 16 -> hex_digit d <> "0"%char.
Proof.
  intros Hd.
  assert (Hcases : d = 1 \/ d = 2 \/ d = 3 \/ d = 4 \/ d = 5 \/ d = 6 \/
                   d = 7 \/ d = 8 \/ d = 9 \/ d = 10 \/ d = 11 \/ d = 12 \/
                   d = 13 \/ d = 14 \/ d = 15) by lia.
  repeat (destruct Hcases as [-> | Hcases]; [discriminate|]).
  subst. discriminate.
Qed.

Lemma hex_go_value fuel : forall z acc,
  0 <= z < 16 ^ Z.of_nat fuel ->
  exists k, 0 <= k /\
    forall a, hex_value_from a (hex_go fuel z acc) = hex_value_from (a * 16 ^ k + z) acc.
Proof.
  induction fuel as [|fuel IH]; intros z acc Hz.
  - exists 0. split; [lia|]. intros a. cbn [hex_go].
    change (16 ^ Z.of_nat 0) with 1 in Hz. f_equal. lia.
  - rewrite Nat2Z.inj_succ, Z.pow_succ_r in Hz by lia.
    pose proof (Z.mod_pos_bound z 16 eq_refl) as Hm.
    pose proof (Z.div_mod z 16 ltac:(lia)) as Hdm.
    cbn [hex_go]. destruct (z / 16 =? 0) eqn:Hq.
    + apply Z.eqb_eq in Hq. exists 1. split; [lia|]. intros a.
      cbn [hex_value_from]. rewrite hex_digit_value_digit by lia.
      f_equal. lia.
    + apply Z.eqb_neq in Hq.
      assert (Hz' : 0 <= z / 16 < 16 ^ Z.of_nat fuel).
      { split; [apply Z.div_pos; lia | apply Z.div_lt_upper_bound; lia]. }
      destruct (IH (z / 16) (String (hex_digit (z mod 16)) acc) Hz') as (k & Hk & Hval).
      exists (k + 1). split; [lia|]. intros a. rewrite Hval.
      cbn [hex_value_from]. rewrite hex_digit_value_digit by lia.
      f_equal. rewrite Z.pow_add_r by lia. lia.
Qed.

Lemma hex_go_head fuel : forall z acc,
  0 < z < 16 ^ Z.of_nat fuel ->
  exists c rest, hex_go fuel z acc = String c rest /\ c <> "0"%char.
Proof.
  induction fuel as [|fuel IH]; intros z acc Hz.
  - change (16 ^ Z.of_nat 0) with 1 in Hz. lia.
  - rewrite Nat2Z.inj_succ, Z.pow_succ_r in Hz by lia.
    pose proof (Z.mod_pos_bound z 16 eq_refl) as Hm.
    pose proof (Z.div_mod z 16 ltac:(lia)) as Hdm.
    cbn [hex_go]. destruct (z / 16 =? 0) eqn:Hq.
    + apply Z.eqb_eq in Hq. eexists _, _. split; [reflexivity|].
      apply hex_digit_nonzero. lia.
    + apply Z.eqb_neq in Hq. apply IH. split.
      * pose proof (Z.div_pos z 16). lia.
      * apply Z.div_lt_upper_bound; lia.
Qed.

Lemma big_Text16_fuel z :
  0 <= z -> z < 16 ^ Z.of_nat (S (Z.to_nat (Z.log2 z))).
Proof.
  intros Hz. destruct (Z.eq_dec z 0) as [->|Hne]; [reflexivity|].
  pose proof (Z.log2_nonneg z) as Hl.
  rewrite Nat2Z.inj_succ, Z2Nat.id by exact Hl.
  eapply Z.lt_le_trans.
  - apply Z.log2_spec. lia.
  - change 16 with (2 ^ 4). rewrite <- Z.pow_mul_r by lia.
    apply Z.pow_le_mono_r; lia.
Qed.

(** What [%x] prints for a non-negative integer is its rendering. *)
Lemma sprintf_0x_rendering z :
  0 <= z -> HexRendering (sprintf_0x (Some z)) z.
Proof.
  intros Hz. exists (big_Text16 z). split; [reflexivity|].
  pose proof (big_Text16_fuel z Hz) as Hfuel.
  assert (Hlead : no_leading_zero (big_Text16 z)).
  { destruct (Z.eq_dec z 0) as [->|Hne]; [now left|].
    right. apply hex_go_head. lia. }
  split; [|exact Hlead].
  destruct (hex_go_value _ z EmptyString (conj Hz Hfuel)) as (k & _ & Hval).
  unfold hex_value. fold (big_Text16 z) in Hval.
  destruct (big_Text16 z) as [|c rest] eqn:Htext.
  - destruct Hlead as [Hl | (c & rest & Hl & _)]; discriminate Hl.
  - rewrite (Hval 0). cbn [hex_value_from]. reflexivity.
Qed.

Lemma sprintf_0x_nil_no_rendering v : ~ HexRendering (sprintf_0x None) v.
Proof.
  intros (ds & Hds & Hval & _). unfold sprintf_0x in Hds.
  cbv in Hds. inversion Hds; subst. vm_compute in Hval. discriminate Hval.
Qed.

(** A rendering determines its value. *)
Lemma HexRendering_value s v v' :
  HexRendering s v -> HexRendering s v' -> v = v'.
Proof.
  intros (ds & -> & Hv & _) (ds' & Heq & Hv' & _).
  cbv [String.append] in Heq. inversion Heq; subst. congruence.
Qed.

(** ** The modular inverse *)

Lemma frModulusBig_ge_2 : 2 <= frModulusBig.
Proof. discriminate. Qed.

Lemma big_ModInverse_coprime s :
  Z.gcd s frModulusBig = 1 ->
  exists w, big_ModInverse s frModulusBig = Some w /\
            0 <= w < frModulusBig /\ (s * w) mod frModulusBig = 1.
Proof.
  intros Hg. exists (Z.invmod s frModulusBig). unfold big_ModInverse.
  rewrite Hg. cbn [Z.eqb Pos.eqb]. split; [reflexivity|]. split.
  - rewrite <- Z.mod_invmod. apply Z.mod_pos_bound. reflexivity.
  - rewrite Z.mul_comm. apply Z.invmod_coprime; [exact frModulusBig_ge_2 | exact Hg].
Qed.

Lemma big_ModInverse_not_coprime s :
  Z.gcd s frModulusBig <> 1 -> big_ModInverse s frModulusBig = None.
Proof.
  intros Hg. unfold big_ModInverse.
  destruct (Z.gcd s frModulusBig =? 1) eqn:He; [|reflexivity].
  apply Z.eqb_eq in He. contradiction.
Qed.

(** ** The registry *)

(** C6: AddSignature encodes r and s on 32 bytes each, big-endian, decodes
    the 64 bytes as a signature, returns the decoder's error if it refuses
    them and otherwise stores the signature under the given key, replacing
    what was there and leaving the other entries alone. *)
Theorem AddSignature_registers `{Collaborators} pubOffset r s w :
  let bytes := fp_Bytes r ++ fp_Bytes s in
  let res := AddSignature pubOffset r s w in
  (length (fp_Bytes r) = 32%nat /\ big_SetBytes (fp_Bytes r) = r mod 2 ^ 256) /\
  (length (fp_Bytes s) = 32%nat /\ big_SetBytes (fp_Bytes s) = s mod 2 ^ 256) /\
  length bytes = 64%nat /\
  segment (snd res) = segment w /\
  match SetBytes bytes with
  | Err msg =>
      fst res = Err (EncodingError msg) /\
      registry (builtin (snd res)) = registry (builtin w)
  | Ok sig =>
      fst res = Ok tt /\
      registry (builtin (snd res)) = <[pubOffset := sig]> (registry (builtin w)) /\
      registry (builtin (snd res)) !! pubOffset = Some sig /\
      forall other, other <> pubOffset ->
        registry (builtin (snd res)) !! other = registry (builtin w) !! other
  end.
Proof.
  intros bytes res.
  split; [split; [apply fp_Bytes_length | apply fp_Bytes_value]|].
  split; [split; [apply fp_Bytes_length | apply fp_Bytes_value]|].
  split; [subst bytes; rewrite length_app, !fp_Bytes_length; reflexivity|].
  subst res. unfold AddSignature. run_monad. cbn [app].
  fold bytes. unfold registry.
  destruct (Signatures (builtin w)) as [sigs|] eqn:Hsigs;
    cbn [fst snd builtin segment calls Signatures default];
    (destruct (SetBytes bytes) as [sig|msg]; cbn [from_decoding fst snd builtin segment calls Signatures default ratio stopPointer];
     rewrite ?Hsigs; cbn [default];
     repeat split; try reflexivity;
     [ apply lookup_insert_eq
     | intros other Hother; apply lookup_insert_ne; congruence ]).
Qed.

(** ** The private input *)

Lemma Peek_known_range seg offset :
  Known (Peek seg offset) = true -> 0 <= offset < Z.of_nat (length (Data seg)).
Proof.
  unfold Peek.
  destruct (offset <? 0) eqn:Hlo, (Z.of_nat (length (Data seg)) <=? offset) eqn:Hhi;
    cbn [orb]; try discriminate.
  intros _. apply Z.ltb_ge in Hlo. apply Z.leb_gt in Hhi. lia.
Qed.

Lemma fp_BigInt_nonneg a : 0 <= fp_BigInt a.
Proof. apply Z.mod_pos_bound. exact fpModulus_pos. Qed.

Lemma range_Signatures_known visit : forall values w,
  Z.of_nat (length (Data (segment w))) < 2 ^ 63 ->
  cells_known (segment w) visit ->
  exists records,
    range_Signatures visit values w =
      ((values ++ records, None), after_calls w (reads visit)) /\
    Forall2 (exported (segment w)) visit records.
Proof.
  induction visit as [|[base sig] rest IH]; intros values w Hlen Hknown.
  - exists []. split; [|constructor].
    cbn. unfold ret, after_calls. rewrite !app_nil_r. now destruct w.
  - destruct (Hknown base sig) as [Kpub Kmsg]; [left|].
    pose proof (Peek_known_range _ _ Kpub) as Rpub.
    pose proof (Peek_known_range _ _ Kmsg) as Rmsg.
    assert (Hnext : add64 base 1 = base + 1).
    { unfold add64, wrap64, uint64_limit. apply Z.mod_small. lia. }
    assert (Hidx : int_of_uint64 (div64 base cellsPerECDSA) = base / 2).
    { unfold int_of_uint64, div64, cellsPerECDSA.
      assert (base / 2 < 2 ^ 63) by (apply Z.div_lt_upper_bound; lia).
      destruct (base / 2 <? 2 ^ 63) eqn:Hlt; [reflexivity|].
      apply Z.ltb_ge in Hlt. lia. }
    cbn [range_Signatures]. run_monad. unfold Read.
    rewrite Kpub. cbn [from_memory fst snd builtin segment calls].
    rewrite Hnext, Kmsg. cbn [from_memory fst snd builtin segment calls].
    rewrite Hidx.
    match goal with
    | |- context [range_Signatures rest ?vs ?w'] =>
        destruct (IH vs w') as (records & Hrun & Hall)
    end.
    + exact Hlen.
    + intros b s' Hin. cbn [segment]. apply (Hknown b s'). now right.
    + cbn [segment] in Hall.
      eexists (_ :: records). split.
      * rewrite Hrun. unfold after_calls, reads. cbn [builtin segment calls flat_map fst app].
        rewrite <- !app_assoc. reflexivity.
      * constructor; [|exact Hall].
        unfold exported. cbn [fst snd Index PubKey Msg SignatureInput R W].
        split; [reflexivity|].
        split; [apply sprintf_0x_rendering, fp_BigInt_nonneg|].
        split; [apply sprintf_0x_rendering, fp_BigInt_nonneg|].
        split; [apply sprintf_0x_rendering, big_SetBytes_nonneg|].
        split.
        -- intros Hg. destruct (big_ModInverse_coprime _ Hg) as (w' & -> & Hw & Hinv).
           exists w'. split; [apply sprintf_0x_rendering; lia | now split].
        -- intros Hg. now rewrite (big_ModInverse_not_coprime _ Hg).
Qed.

Lemma range_order_entries m visit :
  range_order m visit ->
  length visit = size m /\
  forall base sig, (base, sig) ∈ visit <-> m !! base = Some sig.
Proof.
  unfold range_order. intros Hperm. split.
  - rewrite Hperm. apply length_map_to_list.
  - intros base sig. rewrite Hperm. apply elem_of_map_to_list.
Qed.


(** C10: a registered signature whose s is not invertible modulo the scalar
    order does not make the export fail: with all cells known it succeeds,
    and the record of that entry carries as w the text printed for a nil
    integer, which is no hexadecimal numeral. *)
Theorem GetAirPrivateInput_nil_inverse visit w base sig :
  range_order (registry (builtin w)) visit ->
  Z.of_nat (length (Data (segment w))) < 2 ^ 63 ->
  (forall base sig, registry (builtin w) !! base = Some sig ->
     Known (Peek (segment w) base) = true /\
     Known (Peek (segment w) (base + 1)) = true) ->
  registry (builtin w) !! base = Some sig ->
  Z.gcd (big_SetBytes (sig_S sig)) frModulusBig <> 1 ->
  exists records rec,
    fst (GetAirPrivateInput visit w) = (records, None) /\
    length records = size (registry (builtin w)) /\
    rec ∈ records /\
    Index rec = base / 2 /\
    HexRendering (R (SignatureInput rec)) (big_SetBytes (sig_R sig)) /\
    W (SignatureInput rec) = "0x<nil>"%string /\
    forall v, ~ HexRendering (W (SignatureInput rec)) v.
Proof.
  intros Horder Hlen Hknown Hreg Hgcd.
  destruct (range_order_entries _ _ Horder) as [Hsize Hentries].
  destruct (range_Signatures_known visit [] w Hlen) as (records & Hrun & Hall).
  { intros b s Hin. apply (Hknown b s). now apply Hentries. }
  apply Hentries in Hreg. apply list_elem_of_lookup in Hreg as [i Hi].
  destruct (Forall2_lookup_l _ _ _ _ _ Hall Hi) as (rec & Hrec & Hexp).
  exists records, rec. unfold GetAirPrivateInput. rewrite Hrun. cbn [fst app].
  destruct Hexp as (Hidx & _ & _ & Hr & _ & Hnil). cbn [fst snd] in *.
  specialize (Hnil Hgcd).
  split; [reflexivity|].
  split; [rewrite <- Hsize; symmetry; exact (Forall2_length _ _ _ Hall)|].
  split; [eapply list_elem_of_lookup_2; exact Hrec|].
  repeat split; try assumption.
  intros v. rewrite Hnil. apply sprintf_0x_nil_no_rendering.
Qed.

(** ** Powers modulo a number *)

Section PowersOfTwo.
Variable p : Z.
Hypothesis p_gt_1 : 1 < p.

Lemma pow_mod_one a k : 0 <= k -> a mod p = 1 -> a ^ k mod p = 1.
Proof.
  intros Hk Ha. rewrite <- Z.mod_pow_l, Ha, Z.pow_1_l by exact Hk.
  apply Z.mod_1_l. exact p_gt_1.
Qed.

(** If [h] has order exactly [2 ^ n] modulo [p], every exponent that sends
    [h] to one is a multiple of [2 ^ n]. *)
Lemma pow2_order n : forall h k,
  0 <= k ->
  h ^ (2 ^ Z.of_nat n) mod p = 1 ->
  (forall n', n = S n' -> h ^ (2 ^ Z.of_nat n') mod p <> 1) ->
  h ^ k mod p = 1 ->
  (2 ^ Z.of_nat n | k).
Proof.
  induction n as [|n IH]; intros h k Hk Hone Hhalf Hpow.
  - apply Z.divide_1_l.
  - rewrite Nat2Z.inj_succ, Z.pow_succ_r in * by lia.
    set (N := Z.of_nat n) in *.
    assert (HN : 0 <= 2 ^ N) by (apply Z.pow_nonneg; lia).
    pose proof (Z.div_mod k 2 ltac:(lia)) as Hdm.
    pose proof (Z.mod_pos_bound k 2 ltac:(lia)) as Hr.
    assert (Hj : 0 <= k / 2) by (apply Z.div_pos; lia).
    destruct (Z.eq_dec (k mod 2) 1) as [Hodd|Heven].
    + exfalso. apply (Hhalf n eq_refl). fold N.
      assert (Hu : (h ^ 2 ^ N) ^ k mod p = 1).
      { rewrite <- Z.pow_mul_r, Z.mul_comm, Z.pow_mul_r by lia.
        now apply pow_mod_one. }
      rewrite Hdm, Hodd, Z.pow_add_r, Z.pow_1_r in Hu by lia.
      rewrite Z.pow_mul_r, <- (Z.pow_mul_r h), (Z.mul_comm (2 ^ N)) in Hu by lia.
      rewrite Zmult_mod, (pow_mod_one _ _ Hj Hone), Z.mul_1_l, Z.mod_mod in Hu by lia.
      exact Hu.
    + assert (Hk2 : k = 2 * (k / 2)) by lia.
      rewrite Hk2. apply Z.mul_divide_mono_l.
      apply (IH (h ^ 2) (k / 2) Hj).
      * rewrite <- Z.pow_mul_r by lia. exact Hone.
      * intros n' ->. rewrite <- Z.pow_mul_r by lia.
        rewrite <- Z.pow_succ_r, <- Nat2Z.inj_succ by lia.
        apply (Hhalf _ eq_refl).
      * rewrite <- Z.pow_mul_r, <- Hk2 by lia. exact Hpow.
Qed.
End PowersOfTwo.

Lemma prime_divisor n : 1 < n -> exists p, Z.prime p /\ (p | n).
Proof.
  assert (H : 0 <= n -> 1 < n -> exists p, Z.prime p /\ (p | n)); [|intros; apply H; lia].
  intros Hn0. pattern n. apply Z_lt_induction; [|exact Hn0].
  clear n Hn0. intros n IH Hn.
  destruct (prime_dec n) as [Hp|Hnp].
  - exists n. split; [now apply prime_alt | apply Z.divide_refl].
  - destruct (not_prime_divide n Hn Hnp) as (d & Hd & Hdiv).
    destruct (IH d ltac:(lia) ltac:(lia)) as (p & Hp & Hpd).
    exists p. split; [exact Hp | now apply Z.divide_trans with d].
Qed.

(** ** The field prime *)

Lemma fp_Exp_pos_spec x e : fp_Exp_pos x e = x ^ Zpos e mod fpModulus.
Proof.
  induction e as [e IH|e IH|]; cbn [fp_Exp_pos].
  - rewrite IH, Pos2Z.inj_xI, Z.pow_add_r, Z.pow_twice_r, Z.pow_1_r by lia. fp_ring.
  - rewrite IH, Pos2Z.inj_xO, Z.pow_twice_r. fp_ring.
  - now rewrite Z.pow_1_r.
Qed.

Lemma fp_Exp_spec x e : 0 < e -> fp_Exp x e = x ^ e mod fpModulus.
Proof.
  destruct e as [|e|e]; try lia. intros _. apply fp_Exp_pos_spec.
Qed.

(** Three is not a square: raised to half the order of the group it gives
    minus one. *)
Lemma nonResidue_half_order :
  nonResidue ^ (2 ^ 191 * sqrt_s) mod fpModulus = fpModulus - 1.
Proof.
  rewrite <- fp_Exp_spec by reflexivity. vm_compute. reflexivity.
Qed.

(** An element whose [2 ^ n]-th power is minus one modulo an odd prime has
    order [2 ^ (n + 1)], which then divides the order of the group. *)
Lemma two_power_divides_pred p h n :
  Z.prime p -> p <> 2 ->
  h ^ (2 ^ Z.of_nat n) mod p = p - 1 ->
  (2 ^ Z.of_nat (S n) | p - 1).
Proof.
  intros Hp Hodd Hhalf. pose proof (Z.prime_ge_2 _ Hp) as Hp2.
  assert (HN : 0 <= 2 ^ Z.of_nat n) by (apply Z.pow_nonneg; lia).
  assert (Hfull : h ^ (2 ^ Z.of_nat (S n)) mod p = 1).
  { rewrite Nat2Z.inj_succ, Z.pow_succ_r, Z.mul_comm, Z.pow_mul_r by lia.
    rewrite <- Z.mod_pow_l, Hhalf, Z.pow_2_r.
    replace ((p - 1) * (p - 1)) with (1 + (p - 2) * p) by ring.
    rewrite Z.mod_add by lia. apply Z.mod_small. lia. }
  assert (Hunit : h mod p <> 0).
  { intros Hz. rewrite <- Z.mod_pow_l, Hz in Hfull.
    rewrite Z.pow_0_l, Z.mod_0_l in Hfull; [discriminate Hfull | lia |].
    apply Z.pow_pos_nonneg; lia. }
  pose proof (Stdlib.Zmod.ZmodInv.Z.fermat_nz p h Hp Hunit) as Hfermat.
  apply (pow2_order p ltac:(lia) (S n) h); [lia | exact Hfull | | exact Hfermat].
  intros n' [= <-]. rewrite Hhalf. lia.
Qed.

(** Every prime divisor of the modulus is above [2 ^ 192], as the order of
    [3 ^ sqrt_s] modulo it is [2 ^ 192]. *)
Lemma fpModulus_prime_divisor_large p :
  Z.prime p -> (p | fpModulus) -> 2 ^ 192 < p.
Proof.
  intros Hp Hdiv. pose proof (Z.prime_ge_2 _ Hp) as Hp2.
  assert (Hodd : p <> 2).
  { intros ->. apply Z.mod_divide in Hdiv; [discriminate Hdiv | discriminate]. }
  assert (Hord : (2 ^ Z.of_nat 192 | p - 1)).
  { apply (two_power_divides_pred p (nonResidue ^ sqrt_s) 191 Hp Hodd).
    rewrite <- Z.pow_mul_r, Z.mul_comm; [| discriminate | discriminate].
    replace (2 ^ Z.of_nat 191) with (2 ^ 191) by reflexivity.
    rewrite <- (Z.mod_mod_divide _ fpModulus p Hdiv), nonResidue_half_order.
    destruct Hdiv as [c Hc].
    replace (fpModulus - 1) with (p - 1 + (c - 1) * p) by (rewrite Hc; ring).
    rewrite Z.mod_add by lia. apply Z.mod_small. lia. }
  apply Z.divide_pos_le in Hord; [|lia].
  replace (2 ^ Z.of_nat 192) with (2 ^ 192) in Hord by reflexivity. lia.
Qed.

Theorem fpModulus_prime : Z.prime fpModulus.
Proof.
  split; [reflexivity|]. intros n Hn [m Hm].
  assert (Hm1 : 1 < m).
  { assert (0 < m) by nia. assert (m <> 1) by (intros ->; lia). lia. }
  destruct (prime_divisor n ltac:(lia)) as (p1 & Hp1 & Hd1).
  destruct (prime_divisor m Hm1) as (p2 & Hp2 & Hd2).
  assert (H1 : 2 ^ 192 < p1).
  { apply fpModulus_prime_divisor_large; [exact Hp1|].
    apply Z.divide_trans with n; [exact Hd1|]. exists m. exact Hm. }
  assert (H2 : 2 ^ 192 < p2).
  { apply fpModulus_prime_divisor_large; [exact Hp2|].
    apply Z.divide_trans with m; [exact Hd2|]. exists n. lia. }
  apply Z.divide_pos_le in Hd1; [|lia]. apply Z.divide_pos_le in Hd2; [|lia].
  assert (Hbig : 2 ^ 192 * 2 ^ 192 < m * n).
  { apply Z.mul_lt_mono_nonneg; lia. }
  rewrite <- Hm in Hbig. revert Hbig. apply Z.le_ngt. discriminate.
Qed.

(** ** The field *)

Lemma fp_eq_felt a b : is_felt a -> is_felt b -> fp_eq a b -> a = b.
Proof.
  unfold is_felt, fp_eq. intros Ha Hb. now rewrite !Z.mod_small.
Qed.

Lemma felt_zero : is_felt 0.
Proof. split; [discriminate | reflexivity]. Qed.

Lemma felt_one : is_felt 1.
Proof. split; [discriminate | reflexivity]. Qed.

Lemma fp_Mul_felt a b : is_felt (fp_Mul a b).
Proof. apply Z.mod_pos_bound. exact fpModulus_pos. Qed.

Lemma fp_Mul_eq a b : fp_eq (fp_Mul a b) (a * b).
Proof. apply fp_eq_mod. Qed.

#[local] Instance fp_Mul_proper : Proper (fp_eq ==> fp_eq ==> fp_eq) fp_Mul.
Proof. intros a a' Ha b b' Hb. now rewrite !fp_Mul_eq, Ha, Hb. Qed.

Lemma fp_eq_0_divide a : fp_eq a 0 <-> (fpModulus | a).
Proof.
  unfold fp_eq. rewrite Z.mod_0_l by exact fpModulus_neq_0.
  apply Z.mod_divide. exact fpModulus_neq_0.
Qed.

Lemma fp_integral a b : fp_eq (a * b) 0 -> fp_eq a 0 \/ fp_eq b 0.
Proof.
  rewrite !fp_eq_0_divide. apply Z.divide_prime_mul. exact fpModulus_prime.
Qed.

Lemma fp_square_roots_of_one u :
  fp_eq (u * u) 1 -> fp_eq u 1 \/ fp_eq u (-1).
Proof.
  intros Hu. destruct (fp_integral (u - 1) (u + 1)) as [H0|H0].
  - replace ((u - 1) * (u + 1)) with (u * u - 1) by ring. now rewrite Hu.
  - left. replace u with (u - 1 + 1) by ring. now rewrite H0.
  - right. replace u with (u + 1 - 1) by ring. now rewrite H0.
Qed.

#[local] Instance fp_eq_pow : Proper (fp_eq ==> eq ==> fp_eq) Z.pow.
Proof.
  intros a a' Ha k k' <-. unfold fp_eq in *.
  now rewrite <- (Z.mod_pow_l a), <- (Z.mod_pow_l a'), Ha.
Qed.

Lemma fp_pow_zero a n : fp_eq (a ^ Z.of_nat n) 0 -> fp_eq a 0.
Proof.
  induction n as [|n IH].
  - intros H. discriminate H.
  - rewrite Nat2Z.inj_succ, Z.pow_succ_r by lia.
    intros H. destruct (fp_integral _ _ H); auto.
Qed.

Lemma fp_fermat a : ~ fp_eq a 0 -> fp_eq (a ^ (fpModulus - 1)) 1.
Proof.
  intros Ha. unfold fp_eq.
  rewrite (Stdlib.Zmod.ZmodInv.Z.fermat_nz fpModulus a fpModulus_prime).
  - reflexivity.
  - intros Hz. apply Ha. unfold fp_eq. now rewrite Hz.
Qed.

(** ** Repeated squaring *)

Lemma fp_Square_n_add a : forall b t,
  fp_Square_n (a + b) t = fp_Square_n b (fp_Square_n a t).
Proof.
  induction a as [|a IH]; intros b t; [reflexivity|].
  cbn [Nat.add fp_Square_n]. apply IH.
Qed.

Lemma fp_Square_n_succ n t : fp_Square_n (S n) t = fp_Square (fp_Square_n n t).
Proof.
  replace (S n) with (n + 1)%nat by lia. now rewrite fp_Square_n_add.
Qed.

Lemma fp_Square_n_felt n t : is_felt t -> is_felt (fp_Square_n n t).
Proof.
  revert t. induction n as [|n IH]; intros t Ht; [exact Ht|].
  cbn [fp_Square_n]. apply IH, fp_Mul_felt.
Qed.

Lemma fp_Square_n_pow n : forall t,
  fp_eq (fp_Square_n n t) (t ^ (2 ^ Z.of_nat n)).
Proof.
  induction n as [|n IH]; intros t.
  - cbn [fp_Square_n]. now rewrite Z.pow_1_r.
  - cbn [fp_Square_n]. rewrite IH. unfold fp_Square, fp_Mul.
    rewrite fp_eq_mod, Nat2Z.inj_succ, Z.pow_succ_r, Z.pow_mul_r by
      (try apply Z.pow_nonneg; lia).
    now rewrite Z.pow_2_r.
Qed.

#[local] Instance fp_Square_n_proper n : Proper (fp_eq ==> fp_eq) (fp_Square_n n).
Proof.
  intros a b Hab. now rewrite !fp_Square_n_pow, Hab.
Qed.

Lemma fp_Square_n_mul n a b :
  fp_eq (fp_Square_n n (fp_Mul a b)) (fp_Square_n n a * fp_Square_n n b).
Proof.
  rewrite !fp_Square_n_pow. unfold fp_Mul. rewrite fp_eq_mod.
  now rewrite Z.pow_mul_l.
Qed.

(** ** The square root of the field library *)

(** The inner loop stops at the first power of two that sends [t] to one,
    provided one does within the fuel. *)
Lemma squarings_to_one_least fuel : forall t m0 j0,
  (j0 <= fuel)%nat -> fp_Square_n j0 t = 1 ->
  exists j, squarings_to_one fuel t m0 = Some (m0 + j)%nat /\
            (j <= j0)%nat /\ fp_Square_n j t = 1 /\
            forall i, (i < j)%nat -> fp_Square_n i t <> 1.
Proof.
  induction fuel as [|fuel IH]; intros t m0 j0 Hj0 Hone.
  - assert (j0 = 0%nat) as -> by lia. cbn [fp_Square_n] in Hone. subst t.
    exists 0%nat. cbn. rewrite Nat.add_0_r. repeat split; [lia | intros i Hi; lia].
  - cbn [squarings_to_one]. destruct (t =? 1) eqn:Ht.
    + apply Z.eqb_eq in Ht. exists 0%nat. rewrite Nat.add_0_r.
      repeat split; [lia | exact Ht | intros i Hi; lia].
    + apply Z.eqb_neq in Ht. destruct j0 as [|j0]; [contradiction|].
      cbn [fp_Square_n] in Hone.
      destruct (IH (fp_Square t) (S m0) j0 ltac:(lia) Hone) as (j & Hrun & Hle & Hj & Hmin).
      exists (S j). rewrite Hrun. repeat split.
      * f_equal. lia.
      * lia.
      * exact Hj.
      * intros [|i] Hi; [exact Ht | apply Hmin; lia].
Qed.

(** The main loop: with [y * y = x * b], [b] of order dividing
    [2 ^ (r - 1)] and [g] of order [2 ^ r], it ends within [r] rounds on a
    root of [x]. *)
Lemma sqrt_loop_root x fuel : forall y b g r,
  (r <= fuel)%nat -> (1 <= r <= sqrt_r)%nat ->
  is_felt y -> is_felt b ->
  fp_eq (y * y) (x * b) ->
  fp_Square_n (r - 1) b = 1 ->
  fp_eq (fp_Square_n (r - 1) g) (-1) ->
  exists y', sqrt_loop fuel y b g r = Some (Some y') /\
             is_felt y' /\ fp_eq (y' * y') x.
Proof.
  induction fuel as [|fuel IH]; intros y b g r Hfuel Hr Hy Hb Hyb Hbord Hgord; [lia|].
  cbn [sqrt_loop].
  destruct (squarings_to_one_least sqrt_r b 0 (r - 1) ltac:(lia) Hbord)
    as (m & -> & Hm & Hone & Hmin).
  cbn [Nat.add]. destruct m as [|m].
  - cbn [fp_Square_n] in Hone. subst b. exists y.
    split; [reflexivity|]. split; [exact Hy|]. now rewrite Hyb, Z.mul_1_r.
  - set (t := fp_Square_n (r - S m - 1) g).
    assert (Hg' : fp_eq (fp_Square_n m (fp_Square t)) (-1)).
    { unfold t. rewrite <- fp_Square_n_succ, <- fp_Square_n_add.
      replace (S (r - S m - 1) + m)%nat with (r - 1)%nat by lia. exact Hgord. }
    assert (Hb' : fp_eq (fp_Square_n m b) (-1)).
    { destruct (fp_square_roots_of_one (fp_Square_n m b)) as [H1|H1].
      - pose proof Hone as Hsq. rewrite fp_Square_n_succ in Hsq.
        unfold fp_eq. unfold fp_Square, fp_Mul in Hsq. now rewrite Hsq.
      - exfalso. apply (Hmin m ltac:(lia)).
        apply fp_eq_felt; [now apply fp_Square_n_felt | exact felt_one | exact H1].
      - exact H1. }
    apply IH.
    + lia.
    + lia.
    + apply fp_Mul_felt.
    + apply fp_Mul_felt.
    + unfold fp_Square, fp_Mul. rewrite !fp_eq_mod.
      replace (y * t * (y * t)) with (y * y * (t * t)) by ring.
      rewrite Hyb. unfold fp_eq. f_equal. ring.
    + replace (S m - 1)%nat with m by lia.
      apply fp_eq_felt; [apply fp_Square_n_felt, fp_Mul_felt | exact felt_one |].
      rewrite fp_Square_n_mul, Hb', Hg'. reflexivity.
    + replace (S m - 1)%nat with m by lia. exact Hg'.
Qed.

Lemma sqrt_r_bounds : (1 <= sqrt_r <= sqrt_r)%nat.
Proof. unfold sqrt_r. lia. Qed.

Lemma sqrt_g_order : fp_eq (fp_Square_n (sqrt_r - 1) sqrt_g) (-1).
Proof. vm_compute. reflexivity. Qed.

Lemma pow_odd x k : 0 <= k -> x * x ^ k * x ^ k = x ^ (2 * k + 1).
Proof.
  intros Hk. rewrite Z.pow_add_r, Z.pow_1_r, Z.pow_twice_r by lia. ring.
Qed.

(** Euler's criterion, in the two directions the algorithm needs. *)
Lemma euler_of_square x y e :
  0 <= e -> 2 * e = fpModulus - 1 -> fp_eq (y * y) x ->
  (fp_eq y 0 -> fp_eq x 0) /\ (~ fp_eq y 0 -> fp_eq (x ^ e) 1).
Proof.
  intros He Hhalf Hsq. split.
  - intros Hy. now rewrite <- Hsq, Hy.
  - intros Hy. rewrite <- Hsq, <- Z.pow_2_r, <- Z.pow_mul_r, Hhalf by lia.
    now apply fp_fermat.
Qed.

Lemma fp_pow_zero_pos x e : 0 < e -> fp_eq x 0 -> fp_eq (x ^ e) 0.
Proof.
  intros He Hx. rewrite Hx. now rewrite Z.pow_0_l.
Qed.

(** The start of the algorithm, for any odd [s = 2 k + 1] and any [n] with
    [2 * (s * 2 ^ n)] the order of the group: [y * y = x * b], and the
    [2 ^ n]-th power [t] of [b] is zero only at zero, and is neither zero
    nor one only when [x] has no root. *)
Lemma sqrt_start_generic x k s n w :
  0 < k -> s = 2 * k + 1 -> 2 * (s * 2 ^ Z.of_nat n) = fpModulus - 1 ->
  w = fp_Exp x k ->
  let y := fp_Mul x w in
  let b := fp_Mul w y in
  let t := fp_Square_n n b in
  fp_eq (y * y) (x * b) /\ is_felt t /\
  (t = 0 -> fp_eq x 0) /\
  (t <> 0 -> t <> 1 -> forall y0, ~ fp_eq (y0 * y0) x).
Proof.
  intros Hk Hs Horder Hw y b t.
  set (e := s * 2 ^ Z.of_nat n) in *.
  assert (He : 0 < e).
  { pose proof fpModulus_pos. unfold fpModulus in *. lia. }
  assert (Hwx : fp_eq w (x ^ k)).
  { rewrite Hw, fp_Exp_spec by exact Hk. apply fp_eq_mod. }
  assert (Hbx : fp_eq b (x ^ s)).
  { unfold b, y, fp_Mul. rewrite !fp_eq_mod, Hwx, Hs.
    rewrite <- pow_odd by lia. unfold fp_eq. f_equal. ring. }
  assert (Hfelt : is_felt t) by apply fp_Square_n_felt, fp_Mul_felt.
  assert (Ht : fp_eq t (x ^ e)).
  { unfold t, e. rewrite fp_Square_n_pow, Hbx.
    rewrite <- Z.pow_mul_r; [reflexivity | lia | apply Z.pow_nonneg; lia]. }
  split; [|split; [exact Hfelt|split]].
  - unfold b, y. rewrite !fp_Mul_eq. unfold fp_eq. f_equal. ring.
  - intros H0. rewrite H0 in Ht. symmetry in Ht.
    replace e with (Z.of_nat (Z.to_nat e)) in Ht by (apply Z2Nat.id; lia).
    now apply fp_pow_zero in Ht.
  - intros H0 H1 y0 Hsq.
    destruct (euler_of_square x y0 e (Z.lt_le_incl _ _ He) Horder Hsq)
      as [Hzero Hunit].
    destruct (Z.eq_dec (y0 mod fpModulus) 0) as [Hy0|Hy0].
    + apply H0. apply fp_eq_felt; [exact Hfelt | exact felt_zero |].
      rewrite Ht. apply fp_pow_zero_pos; [exact He|]. apply Hzero. exact Hy0.
    + apply H1. apply fp_eq_felt; [exact Hfelt | exact felt_one |].
      rewrite Ht. apply Hunit. intros Hc. apply Hy0. exact Hc.
Qed.

(** The algorithm always ends within its [sqrt_r] rounds, on a root when it
    returns one and only without one when there is none. *)
Theorem fp_Sqrt_fuel_enough x :
  exists res, fp_Sqrt_fuel sqrt_r x = Some res /\
    match res with
    | Some y => is_felt y /\ fp_eq (y * y) x
    | None => forall y, ~ fp_eq (y * y) x
    end.
Proof.
  destruct (sqrt_start_generic x ((sqrt_s - 1) / 2) sqrt_s (sqrt_r - 1)
              (fp_Exp x ((sqrt_s - 1) / 2)) eq_refl eq_refl eq_refl eq_refl)
    as (Hyb & Hfelt & Hzero & Hnone).
  unfold fp_Sqrt_fuel.
  destruct (fp_Square_n (sqrt_r - 1) _ =? 0) eqn:H0.
  - apply Z.eqb_eq in H0. exists (Some 0). split; [reflexivity|].
    split; [exact felt_zero|]. now rewrite (Hzero H0).
  - apply Z.eqb_neq in H0.
    destruct (fp_Square_n (sqrt_r - 1) _ =? 1) eqn:H1; cbn [negb].
    + apply Z.eqb_eq in H1.
      destruct (sqrt_loop_root x sqrt_r _ _ sqrt_g sqrt_r
                  (le_n _) sqrt_r_bounds
                  (fp_Mul_felt _ _) (fp_Mul_felt _ _) Hyb H1 sqrt_g_order)
        as (y' & Hrun & Hy').
      exists (Some y'). split; [exact Hrun | exact Hy'].
    + apply Z.eqb_neq in H1. exists None. split; [reflexivity|].
      exact (Hnone H0 H1).
Qed.

(** The square root keeps the contract the builtin relies on. *)
Lemma stark_SqrtContract : @SqrtContract stark.
Proof.
  split; cbn [Sqrt stark]; unfold fp_Sqrt; intros a.
  - intros y Hs. destruct (fp_Sqrt_fuel_enough a) as (res & Hrun & Hres).
    rewrite Hrun in Hs. subst res. exact Hres.
  - intros Hs. destruct (fp_Sqrt_fuel_enough a) as (res & Hrun & Hres).
    rewrite Hrun in Hs. subst res. exact Hres.
Qed.

(** * Further properties *)

(** ** The checked write, path by path *)

Lemma instance_base_index offset : instance_base offset = 2 * (offset / 2).
Proof. unfold instance_base. pose proof (Z.div_mod offset 2). lia. Qed.

(** The result of CheckWrite is a function of the two cells of the instance
    and of the registry entry of its base. *)
Lemma CheckWrite_depends `{Collaborators} offset v1 v2 w1 w2 :
  is_uint64 offset ->
  Peek (segment w1) (instance_base offset) = Peek (segment w2) (instance_base offset) ->
  Peek (segment w1) (instance_base offset + 1) = Peek (segment w2) (instance_base offset + 1) ->
  registry (builtin w1) !! instance_base offset = registry (builtin w2) !! instance_base offset ->
  fst (CheckWrite offset v1 w1) = fst (CheckWrite offset v2 w2).
Proof.
  intros Hoff Hpub Hmsg Hreg. unfold CheckWrite.
  rewrite (pubOffset_no_wrap _ Hoff), (msgOffset_no_wrap _ Hoff).
  run_monad. rewrite Hpub, Hmsg.
  destruct (negb (Known _) || negb (Known _)); [reflexivity|].
  destruct (FieldElement _) as [x|e]; cbn [from_memory]; [|reflexivity].
  destruct (FieldElement _) as [m|e]; cbn [from_memory]; [|reflexivity].
  destruct (recoverY x) as [[posY negY]|e]; [|reflexivity].
  destruct (negb (IsOnCurve _)); [reflexivity|].
  cbn [fst snd builtin segment calls]. rewrite Hreg.
  case_all; reflexivity.
Qed.

Lemma CheckWrite_same_state `{Collaborators} offset v1 v2 w1 w2 :
  segment w1 = segment w2 ->
  registry (builtin w1) = registry (builtin w2) ->
  fst (CheckWrite offset v1 w1) = fst (CheckWrite offset v2 w2).
Proof.
  intros Hseg Hreg. unfold CheckWrite. run_monad. rewrite Hseg.
  destruct (negb (Known _) || negb (Known _)); [reflexivity|].
  destruct (FieldElement _) as [x|e]; cbn [from_memory]; [|reflexivity].
  destruct (FieldElement _) as [m|e]; cbn [from_memory]; [|reflexivity].
  destruct (recoverY x) as [[posY negY]|e]; [|reflexivity].
  destruct (negb (IsOnCurve _)); [reflexivity|].
  cbn [fst snd builtin segment calls]. rewrite Hreg.
  case_all; reflexivity.
Qed.

Ltac calls_leaf :=
  cbn [negb from_verify from_memory fst snd builtin segment calls];
  rewrite <- ?app_assoc; cbn [app];
  first
    [ exists []; split; [reflexivity|]; split; [cbn; lia | constructor]
    | eexists [_]; split; [reflexivity|]; split; [cbn; lia | repeat constructor; eauto]
    | eexists [_; _]; split; [reflexivity|]; split; [cbn; lia | repeat constructor; eauto] ].

(** X1: on every path CheckWrite peeks the two cells of the instance, base
    first, never forces a cell, and calls the verifier at most twice. *)
Theorem CheckWrite_calls `{Collaborators} offset value w :
  is_uint64 offset ->
  let base := offset - offset mod 2 in
  exists verifications,
    calls (snd (CheckWrite offset value w)) =
      calls w ++ [PeekCall base; PeekCall (base + 1)] ++ verifications /\
    (length verifications <= 2)%nat /\
    Forall (fun c => exists key sig msg, c = VerifyCall key sig msg) verifications.
Proof.
  intros Hoff base. unfold CheckWrite.
  rewrite (pubOffset_no_wrap _ Hoff), (msgOffset_no_wrap _ Hoff).
  change (instance_base offset) with base.
  run_monad. rewrite app_calls.
  destruct (negb (Known _) || negb (Known _)); [calls_leaf|].
  destruct (FieldElement _) as [x|e]; [|calls_leaf].
  destruct (FieldElement _) as [m|e]; [|calls_leaf].
  cbn [from_memory].
  destruct (recoverY x) as [[posY negY]|e]; [|calls_leaf].
  destruct (negb (IsOnCurve _)); [calls_leaf|].
  cbn [fst snd builtin segment calls].
  destruct (registry (builtin w) !! base) as [sig|]; [|calls_leaf].
  cbn [fst snd builtin segment calls].
  destruct (Verify (x, posY) (sig_Bytes sig) (fp_Bytes m)) as [[|]|e];
    [calls_leaf | | calls_leaf].
  cbn [negb from_verify fst snd builtin segment calls].
  destruct (Verify (x, negY) (sig_Bytes sig) (fp_Bytes m)) as [[|]|e]; calls_leaf.
Qed.

(** X2: the two offsets of an instance are checked alike. *)
Theorem CheckWrite_same_instance `{Collaborators} o1 o2 v1 v2 w :
  is_uint64 o1 -> is_uint64 o2 ->
  o1 / cellsPerECDSA = o2 / cellsPerECDSA ->
  CheckWrite o1 v1 w = CheckWrite o2 v2 w.
Proof.
  intros H1 H2 Hidx. unfold CheckWrite.
  rewrite (pubOffset_no_wrap _ H1), (pubOffset_no_wrap _ H2).
  rewrite !instance_base_index. unfold cellsPerECDSA in Hidx. rewrite Hidx.
  reflexivity.
Qed.

(** X3: a known cell that is no field element: the public key is decoded
    first, the message second, and the memory package's error comes back
    before anything else is looked at. *)
Theorem CheckWrite_cell_not_felt `{Collaborators} offset value w e :
  is_uint64 offset ->
  let base := offset - offset mod 2 in
  let pub := Peek (segment w) base in
  let msg := Peek (segment w) (base + 1) in
  Known pub = true -> Known msg = true ->
  match FieldElement pub with
  | Err e' => e' = e
  | Ok _ => FieldElement msg = Err e
  end ->
  CheckWrite offset value w =
    (Err (MemoryFailure e),
     mkWorld (builtin w) (segment w) (calls w ++ [PeekCall base; PeekCall (base + 1)])).
Proof.
  intros Hoff base pub msg Kpub Kmsg Hfelt. unfold CheckWrite.
  rewrite (pubOffset_no_wrap _ Hoff), (msgOffset_no_wrap _ Hoff).
  change (instance_base offset) with base.
  run_monad. rewrite app_calls. fold pub msg. rewrite Kpub, Kmsg.
  cbn [negb orb].
  destruct (FieldElement pub) as [x|e']; cbn [from_memory].
  - now rewrite Hfelt.
  - now subst e'.
Qed.

(** X4: an abscissa at which the curve equation has no solution is refused
    with InvalidPublicKey, a signature being registered or not, and the
    verifier is not called. *)
Theorem CheckWrite_invalid_public_key `{SqrtContract} offset value w x m :
  is_uint64 offset ->
  let base := offset - offset mod 2 in
  Known (Peek (segment w) base) = true ->
  Known (Peek (segment w) (base + 1)) = true ->
  FieldElement (Peek (segment w) base) = Ok x ->
  FieldElement (Peek (segment w) (base + 1)) = Ok m ->
  (forall y, (y * y) mod fpModulus <> (x ^ 3 + Alpha * x + Beta) mod fpModulus) ->
  CheckWrite offset value w =
    (Err InvalidPublicKey,
     mkWorld (builtin w) (segment w) (calls w ++ [PeekCall base; PeekCall (base + 1)])).
Proof.
  intros Hoff base Kpub Kmsg Fpub Fmsg Hnone.
  rewrite (CheckWrite_both_known offset value w _ _ x m Hoff eq_refl eq_refl Kpub Kmsg Fpub Fmsg).
  cbv zeta. rewrite recoverY_unfold.
  destruct (Sqrt (curve_rhs x)) as [y|] eqn:Hs; [|reflexivity].
  destruct (Sqrt_sound _ _ Hs) as [_ Hsq]. rewrite curve_rhs_reduced in Hsq.
  now destruct (Hnone y).
Qed.

(** X5: an error of the verifier ends the check: under the positive
    ordinate the negative one is not tried, and an error under the negative
    ordinate is returned in place of InvalidSignature. *)
Theorem CheckWrite_verify_error `{Collaborators} offset value w x m posY negY sig :
  is_uint64 offset ->
  let base := offset - offset mod 2 in
  Known (Peek (segment w) base) = true ->
  Known (Peek (segment w) (base + 1)) = true ->
  FieldElement (Peek (segment w) base) = Ok x ->
  FieldElement (Peek (segment w) (base + 1)) = Ok m ->
  recoverY x = Ok (posY, negY) ->
  IsOnCurve (x, posY) = true ->
  registry (builtin w) !! base = Some sig ->
  let under y := Verify (x, y) (sig_Bytes sig) (fp_Bytes m) in
  let tried ys :=
    mkWorld (builtin w) (segment w)
      (calls w ++ [PeekCall base; PeekCall (base + 1)]
               ++ map (fun y => VerifyCall (x, y) (sig_Bytes sig) (fp_Bytes m)) ys) in
  (forall e, under posY = Err e ->
     CheckWrite offset value w = (Err (VerifyFailure e), tried [posY])) /\
  (forall e, under posY = Ok false -> under negY = Err e ->
     CheckWrite offset value w = (Err (VerifyFailure e), tried [posY; negY])).
Proof.
  intros Hoff base Kpub Kmsg Fpub Fmsg Hrec Hon Hreg under tried.
  rewrite (CheckWrite_both_known offset value w _ _ x m Hoff eq_refl eq_refl Kpub Kmsg Fpub Fmsg).
  cbv zeta. rewrite Hrec, Hon. cbn [negb].
  change (instance_base offset) with base. rewrite Hreg.
  fold (under posY) (under negY). subst tried. unfold after_calls, peeks.
  change (instance_base offset) with base.
  split.
  - intros e ->. reflexivity.
  - intros e -> ->. reflexivity.
Qed.

(** ** The two candidates *)

#[local] Instance fp_eq_opp : Proper (fp_eq ==> fp_eq) Z.opp.
Proof.
  intros a a' Ha. replace (- a) with (0 - a) by ring.
  replace (- a') with (0 - a') by ring. now rewrite Ha.
Qed.

Lemma fp_Neg_eq y : fp_eq (fp_Neg y) (- y).
Proof.
  unfold fp_Neg. rewrite fp_eq_mod, fp_eq_modulus. reflexivity.
Qed.

Lemma fp_Neg_involutive y : is_felt y -> fp_Neg (fp_Neg y) = y.
Proof.
  intros Hy. apply fp_eq_felt; [apply fp_Neg_felt | exact Hy |].
  rewrite !fp_Neg_eq. unfold fp_eq. f_equal. ring.
Qed.

Lemma fp_Neg_zero y : fp_Neg y mod fpModulus = 0 <-> y mod fpModulus = 0.
Proof.
  change (fp_eq (fp_Neg y) 0 <-> fp_eq y 0). rewrite fp_Neg_eq. split; intros Hz.
  - replace y with (- - y) by ring. now rewrite Hz.
  - now rewrite Hz.
Qed.

(** The curve is symmetric about the axis of abscissas, and so is the test. *)
Lemma IsOnCurve_neg `{Collaborators} x y :
  IsOnCurve (x, fp_Neg y) = IsOnCurve (x, y).
Proof.
  unfold IsOnCurve, IsInfinity. cbn [fst snd].
  assert (Hz : (fp_Neg y mod fpModulus =? 0) = (y mod fpModulus =? 0)).
  { destruct (y mod fpModulus =? 0) eqn:Hy.
    - apply Z.eqb_eq. apply fp_Neg_zero. now apply Z.eqb_eq.
    - apply Z.eqb_neq. rewrite fp_Neg_zero. now apply Z.eqb_neq. }
  rewrite Hz.
  replace (fp_Square (fp_Neg y)) with (fp_Square y); [reflexivity|].
  unfold fp_Square, fp_Mul. symmetry. apply fp_Neg_square.
Qed.

Lemma recoverY_negY `{Collaborators} x posY negY :
  recoverY x = Ok (posY, negY) -> negY = fp_Neg posY.
Proof.
  unfold recoverY. destruct (Sqrt _) as [y|]; [|discriminate].
  now intros [= <- <-].
Qed.

(** X6: the second candidate needs no test of its own: when the positive
    ordinate passed IsOnCurve, the negative one passes it too. *)
Theorem negY_on_curve `{Collaborators} x posY negY :
  recoverY x = Ok (posY, negY) ->
  IsOnCurve (x, posY) = true ->
  IsOnCurve (x, negY) = true.
Proof.
  intros Hrec Hon. rewrite (recoverY_negY _ _ _ Hrec). now rewrite IsOnCurve_neg.
Qed.

(** Every reduced solution of the curve equation at [x] is one of the two
    values recoverY returns. *)
Lemma recoverY_roots `{SqrtContract} x y :
  is_felt y ->
  (y * y) mod fpModulus = curve_rhs x ->
  exists posY, recoverY x = Ok (posY, fp_Neg posY) /\ is_felt posY /\
               (y = posY \/ y = fp_Neg posY).
Proof.
  intros Hy Hsq. rewrite recoverY_unfold.
  destruct (Sqrt (curve_rhs x)) as [y1|] eqn:Hs.
  - destruct (Sqrt_sound _ _ Hs) as [Hy1 Hsq1]. rewrite curve_rhs_reduced in Hsq1.
    exists y1. split; [reflexivity|]. split; [exact Hy1|].
    assert (Hprod : fp_eq ((y - y1) * (y + y1)) 0).
    { replace ((y - y1) * (y + y1)) with (y * y - y1 * y1) by ring.
      assert (Heq : fp_eq (y * y) (y1 * y1)) by (unfold fp_eq; congruence).
      rewrite Heq. unfold fp_eq. f_equal. ring. }
    destruct (fp_integral _ _ Hprod) as [Hd|Hs'].
    + left. apply fp_eq_felt; [exact Hy | exact Hy1 |].
      replace y with (y - y1 + y1) by ring. now rewrite Hd.
    + right. apply fp_eq_felt; [exact Hy | apply fp_Neg_felt |].
      rewrite fp_Neg_eq. replace y with (y + y1 - y1) by ring. now rewrite Hs'.
  - destruct (Sqrt_complete _ Hs y). now rewrite curve_rhs_reduced.
Qed.

(** X7: whichever root the library's square root picks, recoverY offers every
    point of the curve with the given abscissa: a reduced solution of the
    equation is the first or the second candidate. *)
Theorem recoverY_every_root `{SqrtContract} x y :
  is_felt y ->
  (y * y) mod fpModulus = (x ^ 3 + Alpha * x + Beta) mod fpModulus ->
  exists posY negY,
    recoverY x = Ok (posY, negY) /\ (y = posY \/ y = negY).
Proof.
  intros Hy Hsq. destruct (recoverY_roots x y Hy Hsq) as (posY & Hrec & _ & Hor).
  now exists posY, (fp_Neg posY).
Qed.

(** X8: a success with both cells known means a verified signature: the
    registry holds a signature for the base, and the verifier accepted it
    for the message under a key that has the written abscissa, one of the
    recovered ordinates, and passes IsOnCurve. *)
Theorem CheckWrite_sound `{Collaborators} offset value w :
  is_uint64 offset ->
  let base := offset - offset mod 2 in
  let pub := Peek (segment w) base in
  let msg := Peek (segment w) (base + 1) in
  Known pub = true -> Known msg = true ->
  fst (CheckWrite offset value w) = Ok tt ->
  exists x m sig posY negY y,
    FieldElement pub = Ok x /\ FieldElement msg = Ok m /\
    registry (builtin w) !! base = Some sig /\
    recoverY x = Ok (posY, negY) /\ (y = posY \/ y = negY) /\
    IsOnCurve (x, y) = true /\
    Verify (x, y) (sig_Bytes sig) (fp_Bytes m) = Ok true.
Proof.
  intros Hoff base pub msg Kpub Kmsg. unfold CheckWrite.
  rewrite (pubOffset_no_wrap _ Hoff), (msgOffset_no_wrap _ Hoff).
  change (instance_base offset) with base.
  run_monad. fold pub msg. rewrite Kpub, Kmsg. cbn [negb orb].
  destruct (FieldElement pub) as [x|e]; cbn [from_memory]; [|discriminate].
  destruct (FieldElement msg) as [m|e]; cbn [from_memory]; [|discriminate].
  destruct (recoverY x) as [[posY negY]|e] eqn:Hrec; [|discriminate].
  destruct (IsOnCurve (x, posY)) eqn:Hon; cbn [negb]; [|discriminate].
  cbn [fst snd builtin segment calls].
  destruct (registry (builtin w) !! base) as [sig|]; [|discriminate].
  cbn [fst snd builtin segment calls].
  destruct (Verify (x, posY) (sig_Bytes sig) (fp_Bytes m)) as [[|]|e] eqn:Hpos;
    cbn [negb from_verify fst snd builtin segment calls]; [| |discriminate].
  - intros _. exists x, m, sig, posY, negY, posY. repeat split; auto.
  - destruct (Verify (x, negY) (sig_Bytes sig) (fp_Bytes m)) as [[|]|e] eqn:Hneg;
      cbn [negb from_verify fst snd]; try discriminate.
    intros _. exists x, m, sig, posY, negY, negY. repeat split; auto.
    rewrite (recoverY_negY _ _ _ Hrec). now rewrite IsOnCurve_neg.
Qed.

(** ** The signer's key *)

(** X9: a signature that the verifier accepts under the signer's key is
    accepted by CheckWrite, whichever of the two ordinates the key has,
    provided the verifier reports no error under the opposite key. *)
Theorem CheckWrite_accepts_true_key `{SqrtContract} offset value w x m sig y :
  is_uint64 offset ->
  let base := offset - offset mod 2 in
  Known (Peek (segment w) base) = true ->
  Known (Peek (segment w) (base + 1)) = true ->
  FieldElement (Peek (segment w) base) = Ok x ->
  FieldElement (Peek (segment w) (base + 1)) = Ok m ->
  registry (builtin w) !! base = Some sig ->
  is_felt y ->
  (y * y) mod fpModulus = (x ^ 3 + Alpha * x + Beta) mod fpModulus ->
  let under y := Verify (x, y) (sig_Bytes sig) (fp_Bytes m) in
  under y = Ok true ->
  (forall e, under (fp_Neg y) <> Err e) ->
  fst (CheckWrite offset value w) = Ok tt.
Proof.
  intros Hoff base Kpub Kmsg Fpub Fmsg Hreg Hy Hsq under Hvalid Hother.
  destruct (recoverY_roots x y Hy Hsq) as (posY & Hrec & HposY & Hor).
  destruct (recoverY_on_curve x posY _ Hrec) as (_ & _ & _ & Hon & _).
  rewrite (CheckWrite_both_known offset value w _ _ x m Hoff eq_refl eq_refl Kpub Kmsg Fpub Fmsg).
  cbv zeta. rewrite Hrec, Hon. cbn [negb].
  change (instance_base offset) with base. rewrite Hreg.
  fold (under posY) (under (fp_Neg posY)).
  destruct Hor as [-> | ->].
  - now rewrite Hvalid.
  - rewrite (fp_Neg_involutive _ HposY) in Hother.
    destruct (under posY) as [[|]|e]; [reflexivity | | now destruct (Hother e)].
    now rewrite Hvalid.
Qed.

(** ** Registering and checking *)

(** What AddSignature returns and leaves behind. *)
Lemma AddSignature_run `{Collaborators} pubOffset r s w :
  AddSignature pubOffset r s w =
    let e := builtin w in
    match SetBytes (fp_Bytes r ++ fp_Bytes s) with
    | Ok sig =>
        (Ok tt,
         mkWorld (mkECDSA (Some (<[pubOffset := sig]> (registry e))) (ratio e) (stopPointer e))
                 (segment w) (calls w))
    | Err msg =>
        (Err (EncodingError msg),
         mkWorld (mkECDSA (Some (registry e)) (ratio e) (stopPointer e))
                 (segment w) (calls w))
    end.
Proof.
  destruct w as [[[sigs|] rt sp] seg cs]; unfold AddSignature; run_monad;
    cbn [app Signatures ratio stopPointer builtin segment calls fst snd];
    destruct (SetBytes _); reflexivity.
Qed.

Lemma recoverY_error `{Collaborators} x e :
  recoverY x = Err e -> e = InvalidPublicKey.
Proof.
  unfold recoverY. destruct (Sqrt _); [discriminate|]. now intros [= <-].
Qed.

(** X10: once AddSignature has registered a signature for the base of an
    instance, a write into that instance no longer fails for want of one. *)
Theorem AddSignature_then_CheckWrite `{Collaborators} offset value r s w sig :
  is_uint64 offset ->
  SetBytes (fp_Bytes r ++ fp_Bytes s) = Ok sig ->
  let registered := AddSignature (offset - offset mod 2) r s w in
  fst registered = Ok tt /\
  fst (CheckWrite offset value (snd registered)) <> Err MissingSignature.
Proof.
  intros Hoff Hdec registered. subst registered.
  rewrite AddSignature_run, Hdec. cbv zeta. cbn [fst snd]. split; [reflexivity|].
  unfold CheckWrite.
  rewrite (pubOffset_no_wrap _ Hoff), (msgOffset_no_wrap _ Hoff).
  change (instance_base offset) with (offset - offset mod 2).
  run_monad.
  destruct (negb (Known _) || negb (Known _)); [discriminate|].
  destruct (FieldElement _) as [x|e]; cbn [from_memory]; [|discriminate].
  destruct (FieldElement _) as [m|e]; cbn [from_memory]; [|discriminate].
  destruct (recoverY x) as [[posY negY]|e] eqn:Hrec;
    [|rewrite (recoverY_error _ _ Hrec); discriminate].
  destruct (negb (IsOnCurve _)); [discriminate|].
  cbn [fst snd builtin segment calls]. unfold registry. cbn [Signatures default from_option id].
  rewrite lookup_insert_eq.
  case_all; discriminate.
Qed.

(** X11: a signature registered under another key leaves the check of this
    instance as it was. *)
Theorem AddSignature_other_instance `{Collaborators} offset value pubOffset r s w :
  is_uint64 offset ->
  pubOffset <> offset - offset mod 2 ->
  fst (CheckWrite offset value (snd (AddSignature pubOffset r s w))) =
  fst (CheckWrite offset value w).
Proof.
  intros Hoff Hother. apply CheckWrite_depends; [exact Hoff | | |];
    rewrite AddSignature_run; cbv zeta;
    destruct (SetBytes _); cbn [snd builtin segment]; try reflexivity.
  unfold registry at 1. cbn [Signatures default from_option id].
  apply lookup_insert_ne. exact Hother.
Qed.

(** X12: CheckWrite looks signatures up under even keys only: one registered
    under an odd key is never used by any write. *)
Theorem AddSignature_odd_key_unused `{Collaborators} pubOffset r s w :
  pubOffset mod 2 = 1 ->
  forall offset value,
    is_uint64 offset ->
    fst (CheckWrite offset value (snd (AddSignature pubOffset r s w))) =
    fst (CheckWrite offset value w).
Proof.
  intros Hodd offset value Hoff.
  assert (Hother : pubOffset <> instance_base offset).
  { intros ->. rewrite instance_base_even in Hodd. discriminate. }
  apply CheckWrite_depends; [exact Hoff | | |];
    rewrite AddSignature_run; cbv zeta;
    destruct (SetBytes _); cbn [snd builtin segment]; try reflexivity.
  unfold registry at 1. cbn [Signatures default from_option id].
  apply lookup_insert_ne. exact Hother.
Qed.

(** X13: AddSignature touches the map of signatures only: the ratio, the stop
    pointer, the segment and the calls made so far are as before, and the
    map is allocated afterwards, even when the decoder refused the bytes. *)
Theorem AddSignature_frame `{Collaborators} pubOffset r s w :
  let w' := snd (AddSignature pubOffset r s w) in
  ratio (builtin w') = ratio (builtin w) /\
  stopPointer (builtin w') = stopPointer (builtin w) /\
  segment w' = segment w /\
  calls w' = calls w /\
  Signatures (builtin w') <> None.
Proof.
  cbv zeta. rewrite AddSignature_run. cbv zeta.
  destruct (SetBytes _); cbn [snd builtin segment calls ratio stopPointer Signatures];
    repeat split; discriminate.
Qed.

(** X14: registrations under two different keys can be made in either order. *)
Theorem AddSignature_commute `{Collaborators} p1 r1 s1 p2 r2 s2 w :
  p1 <> p2 ->
  snd (AddSignature p2 r2 s2 (snd (AddSignature p1 r1 s1 w))) =
  snd (AddSignature p1 r1 s1 (snd (AddSignature p2 r2 s2 w))).
Proof.
  intros Hne. rewrite !AddSignature_run. cbv zeta.
  destruct (SetBytes (fp_Bytes r1 ++ fp_Bytes s1)) as [sig1|e1],
           (SetBytes (fp_Bytes r2 ++ fp_Bytes s2)) as [sig2|e2];
    cbn [snd builtin segment calls ratio stopPointer];
    rewrite ?AddSignature_run; cbv zeta;
    unfold registry; cbn [snd builtin segment calls ratio stopPointer Signatures default from_option id];
    try reflexivity.
  now rewrite insert_insert_ne.
Qed.

(** ** The private input, entry by entry *)

(** One turn of the loop. *)
Lemma range_Signatures_cons addrOffset signature rest values w :
  range_Signatures ((addrOffset, signature) :: rest) values w =
    let w1 := after_calls w [ReadCall addrOffset] in
    match Read (segment w) addrOffset with
    | Err e => ((values, Some (MemoryFailure e)), w1)
    | Ok pubKey =>
        let w2 := after_calls w [ReadCall addrOffset; ReadCall (add64 addrOffset 1)] in
        match Read (segment w) (add64 addrOffset 1) with
        | Err e => ((values, Some (MemoryFailure e)), w2)
        | Ok msg =>
            range_Signatures rest
              (values ++
                 [mkAirPrivate (int_of_uint64 (div64 addrOffset cellsPerECDSA))
                    (sprintf_0x (Some (fp_BigInt (Felt pubKey))))
                    (sprintf_0x (Some (fp_BigInt (Felt msg))))
                    (mkSignatureInput
                       (sprintf_0x (Some (big_SetBytes (sig_R signature))))
                       (sprintf_0x (big_ModInverse (big_SetBytes (sig_S signature))
                                                   frModulusBig)))])
              w2
        end
    end.
Proof.
  cbn [range_Signatures]. run_monad.
  destruct (Read (segment w) addrOffset) as [pubKey|e]; cbn [from_memory]; [|reflexivity].
  cbn [fst snd builtin segment calls]. rewrite app_calls.
  destruct (Read (segment w) (add64 addrOffset 1)) as [msg|e]; reflexivity.
Qed.

(** The loop over a list in two parts: the second part is run when the
    first went through. *)
Lemma range_Signatures_app l1 : forall l2 values w,
  range_Signatures (l1 ++ l2) values w =
    match range_Signatures l1 values w with
    | ((vs, None), w') => range_Signatures l2 vs w'
    | ((vs, Some e), w') => ((vs, Some e), w')
    end.
Proof.
  induction l1 as [|[addrOffset signature] l1 IH]; intros l2 values w; [reflexivity|].
  rewrite <- app_comm_cons, !range_Signatures_cons. cbv zeta.
  destruct (Read (segment w) addrOffset) as [pubKey|e]; [|reflexivity].
  destruct (Read (segment w) (add64 addrOffset 1)) as [msg|e]; [|reflexivity].
  apply IH.
Qed.

Lemma range_Signatures_frame visit : forall values w,
  let res := range_Signatures visit values w in
  builtin (snd res) = builtin w /\
  segment (snd res) = segment w /\
  (forall e, snd (fst res) = Some e -> exists cause, e = MemoryFailure cause) /\
  exists records offsets,
    fst (fst res) = values ++ records /\
    (length records <= length visit)%nat /\
    (snd (fst res) = None -> length records = length visit) /\
    calls (snd res) = calls w ++ map ReadCall offsets /\
    (length offsets <= 2 * length visit)%nat.
Proof.
  induction visit as [|[addrOffset signature] rest IH]; intros values w; cbv zeta.
  - repeat split; [discriminate|]. exists [], []. cbn. rewrite !app_nil_r.
    repeat split; lia.
  - rewrite range_Signatures_cons. cbv zeta.
    destruct (Read (segment w) addrOffset) as [pubKey|e].
    2:{ repeat split; [intros e' [= <-]; now exists e|].
        exists [], [addrOffset]. cbn [fst snd after_calls calls map length].
        rewrite app_nil_r. repeat split; try lia. discriminate. }
    destruct (Read (segment w) (add64 addrOffset 1)) as [msg|e].
    2:{ repeat split; [intros e' [= <-]; now exists e|].
        exists [], [addrOffset; add64 addrOffset 1].
        cbn [fst snd after_calls calls map length].
        rewrite app_nil_r. repeat split; try lia. discriminate. }
    match goal with
    | |- context [range_Signatures rest ?vs ?w'] =>
        destruct (IH vs w')
          as (Hb & Hs & Herr & records & offsets & Hrec & Hlen & Hall & Hcalls & Hoffs)
    end.
    cbn [after_calls builtin segment calls] in Hb, Hs, Hcalls.
    split; [exact Hb|]. split; [exact Hs|]. split; [exact Herr|].
    eexists (_ :: records), (addrOffset :: add64 addrOffset 1 :: offsets).
    rewrite Hrec, Hcalls. cbn [map length]. rewrite <- !app_assoc. cbn [app].
    repeat split; try lia. intros Hnone. specialize (Hall Hnone). lia.
Qed.

(** The loop goes through only when every cell it reads is known. *)
Lemma range_Signatures_success visit : forall values w,
  snd (fst (range_Signatures visit values w)) = None ->
  forall base sig, (base, sig) ∈ visit ->
    Known (Peek (segment w) base) = true /\
    Known (Peek (segment w) (add64 base 1)) = true.
Proof.
  induction visit as [|[addrOffset signature] rest IH]; intros values w Hnone base sig Hin.
  - now apply not_elem_of_nil in Hin.
  - rewrite range_Signatures_cons in Hnone. cbv zeta in Hnone. unfold Read in *.
    destruct (Known (Peek (segment w) addrOffset)) eqn:Kpub; [|discriminate Hnone].
    destruct (Known (Peek (segment w) (add64 addrOffset 1))) eqn:Kmsg; [|discriminate Hnone].
    apply elem_of_cons in Hin as [[= -> ->]|Hin]; [now split|].
    exact (IH _ _ Hnone base sig Hin).
Qed.

(** The records depend on the segment only. *)
Lemma range_Signatures_segment visit : forall values w1 w2,
  segment w1 = segment w2 ->
  fst (range_Signatures visit values w1) = fst (range_Signatures visit values w2).
Proof.
  induction visit as [|[addrOffset signature] rest IH]; intros values w1 w2 Hseg;
    [reflexivity|].
  rewrite !range_Signatures_cons. cbv zeta. rewrite Hseg.
  destruct (Read (segment w2) addrOffset) as [pubKey|e]; [|reflexivity].
  destruct (Read (segment w2) (add64 addrOffset 1)) as [msg|e]; [|reflexivity].
  apply IH. exact Hseg.
Qed.

(** X15: with nothing registered, the map being nil or empty, the export
    returns no record and no error, and reads no cell. *)
Theorem GetAirPrivateInput_empty visit w :
  registry (builtin w) = ∅ ->
  range_order (registry (builtin w)) visit ->
  GetAirPrivateInput visit w = (([], None), w).
Proof.
  intros Hempty Horder. unfold range_order in Horder.
  rewrite Hempty, map_to_list_empty in Horder.
  apply Permutation_nil_r in Horder. subst visit. reflexivity.
Qed.

(** X16: the export only reads: the builtin and the segment are as before,
    and the calls it makes are forcing reads, at most two for an entry; it
    returns at most one record for an entry, one for every entry when it
    returns no error, and an error it returns is one of the memory. *)
Theorem GetAirPrivateInput_frame visit w :
  let res := GetAirPrivateInput visit w in
  builtin (snd res) = builtin w /\
  segment (snd res) = segment w /\
  (length (fst (fst res)) <= length visit)%nat /\
  (snd (fst res) = None -> length (fst (fst res)) = length visit) /\
  (forall e, snd (fst res) = Some e -> exists cause, e = MemoryFailure cause) /\
  exists offsets,
    calls (snd res) = calls w ++ map ReadCall offsets /\
    (length offsets <= 2 * length visit)%nat.
Proof.
  cbv zeta. unfold GetAirPrivateInput.
  destruct (range_Signatures_frame visit [] w)
    as (Hb & Hs & Herr & records & offsets & Hrec & Hlen & Hall & Hcalls & Hoffs).
  split; [exact Hb|]. split; [exact Hs|]. rewrite Hrec. cbn [app].
  split; [exact Hlen|]. split; [exact Hall|]. split; [exact Herr|].
  exists offsets. split; [exact Hcalls | exact Hoffs].
Qed.

(** X17: the export returns no error exactly when the two cells of every
    entry are known. *)
Theorem GetAirPrivateInput_succeeds_iff visit w :
  Z.of_nat (length (Data (segment w))) < 2 ^ 63 ->
  snd (fst (GetAirPrivateInput visit w)) = None <->
  (forall base sig, (base, sig) ∈ visit ->
     Known (Peek (segment w) base) = true /\
     Known (Peek (segment w) (base + 1)) = true).
Proof.
  intros Hlen. unfold GetAirPrivateInput. split.
  - intros Hnone base sig Hin.
    destruct (range_Signatures_success visit [] w Hnone base sig Hin) as [Kpub Kmsg].
    split; [exact Kpub|].
    pose proof (Peek_known_range _ _ Kpub).
    replace (base + 1) with (add64 base 1); [exact Kmsg|].
    unfold add64, wrap64, uint64_limit. apply Z.mod_small. lia.
  - intros Hknown.
    destruct (range_Signatures_known visit [] w Hlen Hknown) as (records & Hrun & _).
    now rewrite Hrun.
Qed.

(** X18: a cell that cannot be read ends the export at that entry: the
    error of the read comes back together with the records made for the
    entries visited before, the public key being read before the message,
    and the entries after it are not visited. *)
Theorem GetAirPrivateInput_unknown_cell visited base sig rest w e :
  Z.of_nat (length (Data (segment w))) < 2 ^ 63 ->
  (forall b s, (b, s) ∈ visited ->
     Known (Peek (segment w) b) = true /\ Known (Peek (segment w) (b + 1)) = true) ->
  match Read (segment w) base with
  | Err e' => e' = e
  | Ok _ => Read (segment w) (base + 1) = Err e
  end ->
  let res := GetAirPrivateInput (visited ++ (base, sig) :: rest) w in
  fst res = (fst (fst (GetAirPrivateInput visited w)), Some (MemoryFailure e)) /\
  length (fst (fst res)) = length visited /\
  calls (snd res) =
    calls w ++ reads visited ++
    ReadCall base ::
      match Read (segment w) base with
      | Ok _ => [ReadCall (base + 1)]
      | Err _ => []
      end.
Proof.
  intros Hlen Hknown Hfail. cbv zeta. unfold GetAirPrivateInput.
  destruct (range_Signatures_known visited [] w Hlen Hknown) as (records & Hrun & Hall).
  rewrite range_Signatures_app, Hrun. cbn [app fst snd].
  rewrite range_Signatures_cons. cbv zeta. cbn [after_calls segment calls builtin].
  pose proof (Forall2_length _ _ _ Hall) as Hsame.
  destruct (Read (segment w) base) as [pubKey|e'] eqn:Hpub.
  - assert (Hnext : add64 base 1 = base + 1).
    { unfold Read in Hpub. destruct (Known (Peek (segment w) base)) eqn:K; [|discriminate].
      pose proof (Peek_known_range _ _ K).
      unfold add64, wrap64, uint64_limit. apply Z.mod_small. lia. }
    rewrite Hnext, Hfail. unfold after_calls. cbn [fst snd calls].
    rewrite <- app_assoc. now repeat split.
  - subst e'. unfold after_calls. cbn [fst snd calls].
    rewrite <- app_assoc. now repeat split.
Qed.

Lemma range_Signatures_index visit : forall values w,
  Forall (fun entry => is_uint64 (fst entry)) visit ->
  exists records,
    fst (fst (range_Signatures visit values w)) = values ++ records /\
    map Index records = map (fun entry => fst entry / 2) (firstn (length records) visit).
Proof.
  induction visit as [|[addrOffset signature] rest IH]; intros values w Hkeys.
  - exists []. cbn. now rewrite app_nil_r.
  - rewrite range_Signatures_cons. cbv zeta.
    destruct (Read (segment w) addrOffset) as [pubKey|e];
      [|exists []; cbn; now rewrite app_nil_r].
    destruct (Read (segment w) (add64 addrOffset 1)) as [msg|e];
      [|exists []; cbn; now rewrite app_nil_r].
    apply Forall_cons in Hkeys as [Hkey Hkeys]. cbn [fst] in Hkey.
    match goal with
    | |- context [range_Signatures rest ?vs ?w'] =>
        destruct (IH vs w' Hkeys) as (records & Hrec & Hidx)
    end.
    eexists (_ :: records). rewrite Hrec, <- app_assoc. split; [reflexivity|].
    cbn [length firstn map Index fst]. rewrite Hidx. f_equal.
    unfold int_of_uint64, div64, cellsPerECDSA.
    assert (addrOffset / 2 < 2 ^ 63).
    { unfold is_uint64, uint64_limit in Hkey. apply Z.div_lt_upper_bound; lia. }
    destruct (addrOffset / 2 <? 2 ^ 63) eqn:Hlt; [reflexivity|].
    apply Z.ltb_ge in Hlt. lia.
Qed.

(** X19: the index of a record is half the key of its entry: a key below
    2^64 gives an index below 2^63, which the conversion to int keeps. *)
Theorem GetAirPrivateInput_index visit w :
  Forall (fun entry => is_uint64 (fst entry)) visit ->
  let records := fst (fst (GetAirPrivateInput visit w)) in
  map Index records = map (fun entry => fst entry / 2) (firstn (length records) visit) /\
  Forall (fun rec => 0 <= Index rec < 2 ^ 63) records.
Proof.
  intros Hkeys records.
  destruct (range_Signatures_index visit [] w Hkeys) as (recs & Hrec & Hidx).
  assert (Heq : records = recs) by exact Hrec. rewrite Heq.
  split; [exact Hidx|].
  assert (Hall : Forall (fun i => 0 <= i < 2 ^ 63) (map Index recs)).
  { rewrite Hidx. apply Forall_map.
    apply Forall_forall. intros [b s] Hin. cbn [fst].
    assert (Hb : is_uint64 b).
    { apply (proj1 (Forall_forall _ _) Hkeys (b, s)).
      eapply subseteq_take. exact Hin. }
    unfold is_uint64, uint64_limit in Hb. split.
    - apply Z.div_pos; lia.
    - apply Z.div_lt_upper_bound; lia. }
  apply Forall_map in Hall. exact Hall.
Qed.

(** ** The stop pointer *)

(** X20: the stop pointer is bookkeeping of its own: SetStopPointer changes
    nothing else, GetStopPointer gives the value back, and neither the
    checked write nor the export depends on it. *)
Theorem SetStopPointer_only `{Collaborators} p w :
  let w' := snd (SetStopPointer p w) in
  GetStopPointer (builtin w') = p /\
  Signatures (builtin w') = Signatures (builtin w) /\
  ratio (builtin w') = ratio (builtin w) /\
  segment w' = segment w /\
  calls w' = calls w /\
  (forall offset value,
     fst (CheckWrite offset value w') = fst (CheckWrite offset value w)) /\
  (forall visit,
     fst (GetAirPrivateInput visit w') = fst (GetAirPrivateInput visit w)).
Proof.
  cbv zeta. unfold SetStopPointer. run_monad.
  repeat split.
  - intros offset value. now apply CheckWrite_same_state.
  - intros visit. now apply range_Signatures_segment.
Qed.

(** ** From the registration to the export *)

(** X21: what AddSignature stores is what the export prints: with a decoder
    that keeps the two halves it is given, the record of the entry renders
    r itself and the inverse of s modulo the scalar order. *)
Theorem AddSignature_export `{Collaborators} pubOffset r s w visit :
  is_felt r -> is_felt s ->
  SetBytes (fp_Bytes r ++ fp_Bytes s) = Ok (mkSignature (fp_Bytes r) (fp_Bytes s)) ->
  let w' := snd (AddSignature pubOffset r s w) in
  range_order (registry (builtin w')) visit ->
  Z.of_nat (length (Data (segment w'))) < 2 ^ 63 ->
  (forall base sig, registry (builtin w') !! base = Some sig ->
     Known (Peek (segment w') base) = true /\
     Known (Peek (segment w') (base + 1)) = true) ->
  exists records rec,
    fst (GetAirPrivateInput visit w') = (records, None) /\
    rec ∈ records /\
    Index rec = pubOffset / 2 /\
    HexRendering (R (SignatureInput rec)) r /\
    (Z.gcd s frModulusBig = 1 ->
     exists inv, HexRendering (W (SignatureInput rec)) inv /\
                 0 <= inv < frModulusBig /\ (s * inv) mod frModulusBig = 1).
Proof.
  intros Hr Hs Hdec w' Horder Hlen Hknown.
  assert (Hreg : registry (builtin w') !! pubOffset
                 = Some (mkSignature (fp_Bytes r) (fp_Bytes s))).
  { subst w'. rewrite AddSignature_run, Hdec. cbv zeta.
    unfold registry at 1. cbn [snd builtin Signatures default from_option id].
    apply lookup_insert_eq. }
  destruct (range_order_entries _ _ Horder) as [_ Hentries].
  destruct (range_Signatures_known visit [] w' Hlen) as (records & Hrun & Hall).
  { intros b sg Hin. apply (Hknown b sg). now apply Hentries. }
  apply Hentries in Hreg. apply list_elem_of_lookup in Hreg as [i Hi].
  destruct (Forall2_lookup_l _ _ _ _ _ Hall Hi) as (rec & Hrec & Hexp).
  exists records, rec. unfold GetAirPrivateInput. rewrite Hrun. cbn [fst app].
  destruct Hexp as (Hidx & _ & _ & HR & HW & _). cbn [fst snd sig_R sig_S] in *.
  rewrite (fp_Bytes_felt _ Hr) in HR. rewrite (fp_Bytes_felt _ Hs) in HW.
  split; [reflexivity|].
  split; [eapply list_elem_of_lookup_2; exact Hrec|].
  split; [exact Hidx|]. split; [exact HR | exact HW].
Qed.

(** * Examples on the Stark curve *)

Lemma is_uint64_0 : is_uint64 0.
Proof. split; [discriminate | reflexivity]. Qed.

Lemma is_uint64_1 : is_uint64 1.
Proof. split; [discriminate | reflexivity]. Qed.

Lemma recoverY_test_x : @recoverY stark test_x = Ok (test_posY, test_negY).
Proof. vm_compute. reflexivity. Qed.

Lemma test_point_on_curve : @IsOnCurve stark (test_x, test_posY) = true.
Proof. vm_compute. reflexivity. Qed.

Lemma recoverY_careless : @recoverY careless test_x = Ok (1, fp_Neg 1).
Proof. reflexivity. Qed.

Lemma careless_point_off_curve : @IsOnCurve careless (test_x, 1) = false.
Proof. vm_compute. reflexivity. Qed.

Lemma fp_Sqrt_beta : fp_Sqrt starkBeta = None.
Proof. vm_compute. reflexivity. Qed.

Lemma beta_no_root y : (y * y) mod fpModulus <> starkBeta.
Proof.
  intros Hy.
  apply (@Sqrt_complete stark stark_SqrtContract starkBeta fp_Sqrt_beta y).
  rewrite Hy. reflexivity.
Qed.

Lemma zero_s_not_invertible :
  Z.gcd (big_SetBytes (sig_S zero_s_signature)) frModulusBig <> 1.
Proof. vm_compute. discriminate. Qed.

Lemma verify_pos_under_posY :
  stark_Verify (test_x, test_posY) (sig_Bytes (test_sig test_r_pos))
    (fp_Bytes test_r_pos) = Ok true.
Proof. vm_compute. reflexivity. Qed.

Lemma verify_neg_under_posY :
  stark_Verify (test_x, test_posY) (sig_Bytes (test_sig test_r_neg))
    (fp_Bytes test_r_neg) = Ok false.
Proof. vm_compute. reflexivity. Qed.

Lemma verify_neg_under_negY :
  stark_Verify (test_x, test_negY) (sig_Bytes (test_sig test_r_neg))
    (fp_Bytes test_r_neg) = Ok true.
Proof. vm_compute. reflexivity. Qed.

Lemma verify_five_under_posY :
  stark_Verify (test_x, test_posY) (sig_Bytes (test_sig 5)) (fp_Bytes 5) = Ok false.
Proof. vm_compute. reflexivity. Qed.

Lemma verify_five_under_negY :
  stark_Verify (test_x, test_negY) (sig_Bytes (test_sig 5)) (fp_Bytes 5) = Ok false.
Proof. vm_compute. reflexivity. Qed.

(** On the Stark curve: the abscissa written and the message missing,
    then the message written and the abscissa missing. *)
Lemma CheckWrite_awaits_both_witness :
  CheckWrite 0 None world_pub_only =
    (Ok tt, after_calls world_pub_only [PeekCall 0; PeekCall 1]) /\
  CheckWrite 1 None world_msg_only =
    (Ok tt, after_calls world_msg_only [PeekCall 0; PeekCall 1]).
Proof.
  split.
  - exact (@CheckWrite_awaits_both stark 0 None world_pub_only
             is_uint64_0 (or_intror eq_refl)).
  - exact (@CheckWrite_awaits_both stark 1 None world_msg_only
             is_uint64_1 (or_introl eq_refl)).
Defined.

(** On the Stark curve: both cells written, nothing registered. *)
Lemma CheckWrite_missing_signature_witness :
  fst (CheckWrite 1 None (test_world test_r_pos None)) = Err MissingSignature.
Proof.
  rewrite (@CheckWrite_missing_signature stark 1 None (test_world test_r_pos None)
             (FeltValue test_x) (FeltValue test_r_pos) test_x test_r_pos
             test_posY test_negY is_uint64_1 eq_refl eq_refl eq_refl eq_refl
             eq_refl eq_refl recoverY_test_x test_point_on_curve eq_refl).
  reflexivity.
Defined.

(** On the Stark curve: a signature valid for the positive ordinate, one
    valid for the negative ordinate only, and one valid for neither. *)
Lemma CheckWrite_dual_candidate_witness :
  fst (CheckWrite 1 None (test_world test_r_pos (Some (test_sig test_r_pos)))) = Ok tt /\
  fst (CheckWrite 1 None (test_world test_r_neg (Some (test_sig test_r_neg)))) = Ok tt /\
  fst (CheckWrite 1 None (test_world 5 (Some (test_sig 5)))) = Err InvalidSignature.
Proof.
  pose proof (fun m =>
    @CheckWrite_dual_candidate stark stark_SqrtContract 1 None
      (test_world m (Some (test_sig m))) (FeltValue test_x) (FeltValue m)
      test_x m test_posY test_negY (test_sig m) is_uint64_1
      eq_refl eq_refl eq_refl eq_refl eq_refl eq_refl recoverY_test_x eq_refl) as H.
  cbv zeta in H. split; [|split].
  - destruct (H test_r_pos) as (_ & Hpos & _).
    exact (proj1 (Hpos verify_pos_under_posY)).
  - destruct (H test_r_neg) as (_ & _ & Hneg & _).
    exact (proj1 (Hneg verify_neg_under_posY verify_neg_under_negY)).
  - destruct (H 5) as (_ & _ & _ & Hinv).
    exact (proj2 Hinv (conj verify_five_under_posY verify_five_under_negY)).
Defined.

(** With the careless square root the test fires; on the Stark curve
    the recovered point passes it and the error is not returned. *)
Lemma KeyNotOnCurve_defensive_witness :
  fst (@CheckWrite careless 1 None (test_world test_r_pos None)) = Err KeyNotOnCurve /\
  @IsOnCurve stark (test_x, test_posY) = true /\
  fst (@CheckWrite stark 1 None (test_world test_r_pos None)) <> Err KeyNotOnCurve.
Proof.
  split; [|split].
  - exact (proj1 (@KeyNotOnCurve_defensive careless) 1 None
             (test_world test_r_pos None) (FeltValue test_x) (FeltValue test_r_pos)
             test_x test_r_pos 1 (fp_Neg 1) is_uint64_1 eq_refl eq_refl eq_refl
             eq_refl eq_refl eq_refl recoverY_careless careless_point_off_curve).
  - exact (proj2 (proj1 (proj2 (@KeyNotOnCurve_defensive stark) stark_SqrtContract)
                    test_x test_posY test_negY recoverY_test_x)).
  - exact (proj2 (proj2 (@KeyNotOnCurve_defensive stark) stark_SqrtContract)
             1 None (test_world test_r_pos None)).
Defined.

(** On the Stark curve: an abscissa of the curve, with its two ordinates,
    and the abscissa zero, at which the right-hand side is BETA, not a
    square. *)
Lemma recoverY_candidates_witness :
  (exists y negY,
     @recoverY stark test_x = Ok (y, negY) /\
     (y + negY) mod fpModulus = 0 /\
     (y * y) mod fpModulus = (test_x ^ 3 + Alpha * test_x + Beta) mod fpModulus /\
     (negY * negY) mod fpModulus = (test_x ^ 3 + Alpha * test_x + Beta) mod fpModulus) /\
  @recoverY stark 0 = Err InvalidPublicKey.
Proof.
  split.
  - destruct (proj1 (@recoverY_candidates stark stark_SqrtContract test_x))
      as (y & Hrec & _ & _ & Hsum & Hsq & Hneg).
    + exists test_posY. vm_compute. reflexivity.
    + exists y, (fp_Neg y). split; [exact Hrec|]. split; [exact Hsum|].
      split; [exact Hsq | exact Hneg].
  - apply (proj2 (@recoverY_candidates stark stark_SqrtContract 0)).
    exact beta_no_root.
Defined.

(** Two worlds that agree on the instance and on its registry entry,
    and differ in the other cells, the other entries and the value. *)
Lemma CheckWrite_ignores_value_witness :
  fst (CheckWrite 1 None (test_world test_r_pos (Some (test_sig test_r_pos)))) =
  fst (CheckWrite 1 (Some (FeltValue 7))
         (export_world (test_sig test_r_pos) zero_s_signature)).
Proof.
  exact (@CheckWrite_ignores_value stark 1 None (Some (FeltValue 7))
           (test_world test_r_pos (Some (test_sig test_r_pos)))
           (export_world (test_sig test_r_pos) zero_s_signature)
           is_uint64_1 eq_refl eq_refl eq_refl).
Defined.

Lemma export_world_order first second :
  range_order (registry (builtin (export_world first second)))
              [(0, first); (2, second)].
Proof.
  unfold range_order.
  change (registry (builtin (export_world first second)))
    with (<[0 := first]> ({[ 2 := second ]} : gmap Z Signature)).
  rewrite map_to_list_insert by reflexivity.
  now rewrite map_to_list_singleton.
Qed.

Lemma export_world_known first second base sig :
  registry (builtin (export_world first second)) !! base = Some sig ->
  Known (Peek (segment (export_world first second)) base) = true /\
  Known (Peek (segment (export_world first second)) (base + 1)) = true.
Proof.
  change (registry (builtin (export_world first second)))
    with (<[0 := first]> ({[ 2 := second ]} : gmap Z Signature)).
  intros Hin. apply lookup_insert_Some in Hin as [[<- _]|[_ Hin]].
  - split; reflexivity.
  - apply lookup_singleton_Some in Hin as [<- _]. split; reflexivity.
Qed.


(** Registering s = 0 for the second instance is accepted by the decoder,
    and the export then prints the nil inverse for it. *)
Lemma GetAirPrivateInput_nil_inverse_witness :
  let w0 := export_world (test_sig test_r_pos) (test_sig test_r_neg) in
  let registered := @AddSignature stark 2 test_r_neg 0 w0 in
  fst registered = Ok tt /\
  exists records rec,
    fst (GetAirPrivateInput [(0, test_sig test_r_pos); (2, zero_s_signature)]
           (snd registered))
      = (records, None) /\
    rec ∈ records /\ Index rec = 1 /\
    W (SignatureInput rec) = "0x<nil>"%string.
Proof.
  intros w0 registered.
  assert (Hreg : registered = (Ok tt, export_world (test_sig test_r_pos) zero_s_signature))
    by (vm_compute; reflexivity).
  rewrite Hreg. cbn [fst snd]. split; [reflexivity|].
  destruct (@GetAirPrivateInput_nil_inverse
              [(0, test_sig test_r_pos); (2, zero_s_signature)]
              (export_world (test_sig test_r_pos) zero_s_signature)
              2 zero_s_signature
              (export_world_order _ _) eq_refl (export_world_known _ _) eq_refl
              zero_s_not_invertible)
    as (records & rec & Hrun & _ & Hin & Hidx & _ & Hnil & _).
  exists records, rec. split; [exact Hrun|]. split; [exact Hin|].
  split; [exact Hidx | exact Hnil].
Defined.

(** ** Examples of the further properties *)

Lemma is_uint64_2 : is_uint64 2.
Proof. split; [discriminate | reflexivity]. Qed.

Lemma zero_abscissa_no_root y :
  (y * y) mod fpModulus <> (0 ^ 3 + @Alpha stark * 0 + @Beta stark) mod fpModulus.
Proof. exact (beta_no_root y). Qed.

Lemma verify_oversized :
  stark_Verify (test_x, test_posY) (sig_Bytes oversized_signature) (fp_Bytes 5)
  = Err "r is bigger than r_mod"%string.
Proof. vm_compute. reflexivity. Qed.

Lemma felt_test_negY : is_felt test_negY.
Proof. split; [discriminate | reflexivity]. Qed.

Lemma felt_test_r_pos : is_felt test_r_pos.
Proof. split; [discriminate | reflexivity]. Qed.

Lemma test_negY_on_equation :
  (test_negY * test_negY) mod fpModulus =
  (test_x ^ 3 + @Alpha stark * test_x + @Beta stark) mod fpModulus.
Proof. vm_compute. reflexivity. Qed.

Lemma verify_neg_under_opposite e :
  stark_Verify (test_x, fp_Neg test_negY) (sig_Bytes (test_sig test_r_neg))
    (fp_Bytes test_r_neg) <> Err e.
Proof.
  replace (fp_Neg test_negY) with test_posY by (vm_compute; reflexivity).
  rewrite verify_neg_under_posY. discriminate.
Qed.

Lemma CheckWrite_neg_accepted :
  fst (@CheckWrite stark 1 None (test_world test_r_neg (Some (test_sig test_r_neg)))) = Ok tt.
Proof. vm_compute. reflexivity. Qed.

Lemma decode_test_sig :
  stark_SetBytes (fp_Bytes test_r_pos ++ fp_Bytes test_r_pos) =
  Ok (mkSignature (fp_Bytes test_r_pos) (fp_Bytes test_r_pos)).
Proof. vm_compute. reflexivity. Qed.

Lemma export_keys_uint64 (first second : Signature) :
  Forall (fun entry => is_uint64 (fst entry)) [(0, first); (2, second)].
Proof.
  apply List.Forall_cons; [exact is_uint64_0|].
  apply List.Forall_cons; [exact is_uint64_2|]. apply List.Forall_nil.
Qed.

Lemma range_order_nil : range_order ∅ [].
Proof. unfold range_order. now rewrite map_to_list_empty. Qed.

Lemma first_entry_known b s :
  (b, s) ∈ [(0, test_sig test_r_pos)] ->
  Known (Peek (segment world_three_cells) b) = true /\
  Known (Peek (segment world_three_cells) (b + 1)) = true.
Proof.
  intros Hin. apply list_elem_of_singleton in Hin. injection Hin as -> _.
  split; reflexivity.
Qed.

Lemma register_again :
  snd (@AddSignature stark 2 test_r_pos test_r_pos
         (export_world (test_sig test_r_pos) (test_sig test_r_neg))) =
  export_world (test_sig test_r_pos) (test_sig test_r_pos).
Proof. vm_compute. reflexivity. Qed.

(** On the Stark curve: a write whose signature needs both verifications. *)
Lemma CheckWrite_calls_witness :
  exists verifications,
    calls (snd (CheckWrite 1 None (test_world test_r_neg (Some (test_sig test_r_neg))))) =
      [PeekCall 0; PeekCall 1] ++ verifications /\
    (length verifications <= 2)%nat.
Proof.
  destruct (@CheckWrite_calls stark 1 None
              (test_world test_r_neg (Some (test_sig test_r_neg))) is_uint64_1)
    as (verifications & Hcalls & Hlen & _).
  exists verifications. split; [exact Hcalls | exact Hlen].
Defined.

(** The two cells of the first instance. *)
Lemma CheckWrite_same_instance_witness :
  CheckWrite 0 None (test_world test_r_pos (Some (test_sig test_r_pos))) =
  CheckWrite 1 (Some (FeltValue 7)) (test_world test_r_pos (Some (test_sig test_r_pos))).
Proof.
  exact (@CheckWrite_same_instance stark 0 1 None (Some (FeltValue 7))
           (test_world test_r_pos (Some (test_sig test_r_pos)))
           is_uint64_0 is_uint64_1 eq_refl).
Defined.

(** An address in the first cell, and an address in the second. *)
Lemma CheckWrite_cell_not_felt_witness :
  fst (CheckWrite 0 None world_address_key) = Err (MemoryFailure NotAFieldElement) /\
  fst (CheckWrite 1 None world_address_msg) = Err (MemoryFailure NotAFieldElement).
Proof.
  split.
  - rewrite (@CheckWrite_cell_not_felt stark 0 None world_address_key NotAFieldElement
               is_uint64_0 eq_refl eq_refl eq_refl).
    reflexivity.
  - rewrite (@CheckWrite_cell_not_felt stark 1 None world_address_msg NotAFieldElement
               is_uint64_1 eq_refl eq_refl eq_refl).
    reflexivity.
Defined.

(** On the Stark curve no point has the abscissa zero. *)
Lemma CheckWrite_invalid_public_key_witness :
  fst (CheckWrite 1 None world_zero_key) = Err InvalidPublicKey.
Proof.
  rewrite (@CheckWrite_invalid_public_key stark stark_SqrtContract 1 None world_zero_key
             0 5 is_uint64_1 eq_refl eq_refl eq_refl eq_refl zero_abscissa_no_root).
  reflexivity.
Defined.

(** A registry entry that the verifier cannot decode. *)
Lemma CheckWrite_verify_error_witness :
  fst (CheckWrite 1 None (test_world 5 (Some oversized_signature))) =
  Err (VerifyFailure "r is bigger than r_mod").
Proof.
  rewrite (proj1 (@CheckWrite_verify_error stark 1 None
                    (test_world 5 (Some oversized_signature)) test_x 5
                    test_posY test_negY oversized_signature is_uint64_1
                    eq_refl eq_refl eq_refl eq_refl recoverY_test_x
                    test_point_on_curve eq_refl)
                 _ verify_oversized).
  reflexivity.
Defined.

Lemma negY_on_curve_witness : @IsOnCurve stark (test_x, test_negY) = true.
Proof.
  exact (@negY_on_curve stark test_x test_posY test_negY recoverY_test_x
           test_point_on_curve).
Defined.

(** The point with the negative ordinate is the second candidate. *)
Lemma recoverY_every_root_witness :
  exists posY negY,
    @recoverY stark test_x = Ok (posY, negY) /\ (test_negY = posY \/ test_negY = negY).
Proof.
  exact (@recoverY_every_root stark stark_SqrtContract test_x test_negY
           felt_test_negY test_negY_on_equation).
Defined.

(** A write accepted under the negative ordinate. *)
Lemma CheckWrite_sound_witness :
  exists sig y,
    registry (builtin (test_world test_r_neg (Some (test_sig test_r_neg)))) !! 0 = Some sig /\
    @IsOnCurve stark (test_x, y) = true /\
    stark_Verify (test_x, y) (sig_Bytes sig) (fp_Bytes test_r_neg) = Ok true.
Proof.
  destruct (@CheckWrite_sound stark 1 None
              (test_world test_r_neg (Some (test_sig test_r_neg)))
              is_uint64_1 eq_refl eq_refl CheckWrite_neg_accepted)
    as (x & m & sig & posY & negY & y & Fpub & Fmsg & Hreg & _ & _ & Hon & Hver).
  injection Fpub as <-. injection Fmsg as <-.
  exists sig, y. split; [exact Hreg|]. split; [exact Hon | exact Hver].
Defined.

(** The signer's key has the negative ordinate. *)
Lemma CheckWrite_accepts_true_key_witness :
  fst (CheckWrite 1 None (test_world test_r_neg (Some (test_sig test_r_neg)))) = Ok tt.
Proof.
  exact (@CheckWrite_accepts_true_key stark stark_SqrtContract 1 None
           (test_world test_r_neg (Some (test_sig test_r_neg)))
           test_x test_r_neg (test_sig test_r_neg) test_negY
           is_uint64_1 eq_refl eq_refl eq_refl eq_refl eq_refl
           felt_test_negY test_negY_on_equation
           verify_neg_under_negY verify_neg_under_opposite).
Defined.

(** Registering for the instance that was written without a signature. *)
Lemma AddSignature_then_CheckWrite_witness :
  let w := test_world test_r_pos None in
  let registered := @AddSignature stark 0 test_r_pos test_r_pos w in
  fst registered = Ok tt /\
  fst (CheckWrite 1 None (snd registered)) <> Err MissingSignature.
Proof.
  exact (@AddSignature_then_CheckWrite stark 1 None test_r_pos test_r_pos
           (test_world test_r_pos None) _ is_uint64_1 decode_test_sig).
Defined.

(** Registering for the second instance, then writing into the first. *)
Lemma AddSignature_other_instance_witness :
  fst (CheckWrite 1 None
         (snd (@AddSignature stark 2 test_r_pos test_r_pos (test_world test_r_pos None)))) =
  fst (CheckWrite 1 None (test_world test_r_pos None)).
Proof.
  exact (@AddSignature_other_instance stark 1 None 2 test_r_pos test_r_pos
           (test_world test_r_pos None) is_uint64_1 ltac:(discriminate)).
Defined.

(** Registering under the offset of the message cell. *)
Lemma AddSignature_odd_key_unused_witness :
  fst (CheckWrite 1 None
         (snd (@AddSignature stark 1 test_r_pos test_r_pos (test_world test_r_pos None)))) =
  fst (CheckWrite 1 None (test_world test_r_pos None)).
Proof.
  exact (@AddSignature_odd_key_unused stark 1 test_r_pos test_r_pos
           (test_world test_r_pos None) eq_refl 1 None is_uint64_1).
Defined.

Lemma AddSignature_commute_witness :
  snd (@AddSignature stark 2 test_r_neg test_r_neg
         (snd (@AddSignature stark 0 test_r_pos test_r_pos world_pub_only))) =
  snd (@AddSignature stark 0 test_r_pos test_r_pos
         (snd (@AddSignature stark 2 test_r_neg test_r_neg world_pub_only))).
Proof.
  exact (@AddSignature_commute stark 0 test_r_pos test_r_pos 2 test_r_neg test_r_neg
           world_pub_only ltac:(discriminate)).
Defined.

(** A builtin whose map was never allocated. *)
Lemma GetAirPrivateInput_empty_witness :
  GetAirPrivateInput [] world_pub_only = (([], None), world_pub_only).
Proof.
  exact (GetAirPrivateInput_empty [] world_pub_only eq_refl range_order_nil).
Defined.

(** The message of the second entry was never written. *)
Lemma GetAirPrivateInput_unknown_cell_witness :
  let res := GetAirPrivateInput [(0, test_sig test_r_pos); (2, test_sig test_r_neg)]
               world_three_cells in
  snd (fst res) = Some (MemoryFailure (UnknownCell 3)) /\
  length (fst (fst res)) = 1%nat /\
  calls (snd res) = [ReadCall 0; ReadCall 1; ReadCall 2; ReadCall 3].
Proof.
  destruct (GetAirPrivateInput_unknown_cell [(0, test_sig test_r_pos)] 2
              (test_sig test_r_neg) [] world_three_cells (UnknownCell 3)
              eq_refl first_entry_known eq_refl)
    as (Hres & Hlen & Hcalls).
  cbv zeta. split; [|split].
  - change ([(0, test_sig test_r_pos); (2, test_sig test_r_neg)])
      with ([(0, test_sig test_r_pos)] ++ (2, test_sig test_r_neg) :: []).
    now rewrite Hres.
  - exact Hlen.
  - exact Hcalls.
Defined.

Lemma GetAirPrivateInput_index_witness :
  map Index (fst (fst (GetAirPrivateInput
                         [(0, test_sig test_r_pos); (2, test_sig test_r_neg)]
                         (export_world (test_sig test_r_pos) (test_sig test_r_neg)))))
  = [0; 1].
Proof.
  pose proof (proj1 (GetAirPrivateInput_index
                [(0, test_sig test_r_pos); (2, test_sig test_r_neg)]
                (export_world (test_sig test_r_pos) (test_sig test_r_neg))
                (export_keys_uint64 _ _))) as Hidx.
  rewrite Hidx. reflexivity.
Defined.

(** Registering the second instance again, then exporting. *)
Lemma AddSignature_export_witness :
  let w := snd (@AddSignature stark 2 test_r_pos test_r_pos
                  (export_world (test_sig test_r_pos) (test_sig test_r_neg))) in
  exists records rec,
    fst (GetAirPrivateInput [(0, test_sig test_r_pos); (2, test_sig test_r_pos)] w)
      = (records, None) /\
    rec ∈ records /\ Index rec = 1 /\
    HexRendering (R (SignatureInput rec)) test_r_pos.
Proof.
  pose proof (@AddSignature_export stark 2 test_r_pos test_r_pos
                (export_world (test_sig test_r_pos) (test_sig test_r_neg))
                [(0, test_sig test_r_pos); (2, test_sig test_r_pos)]
                felt_test_r_pos felt_test_r_pos decode_test_sig) as H.
  cbv zeta in *. rewrite register_again in *.
  destruct (H (export_world_order _ _) eq_refl (export_world_known _ _))
    as (records & rec & Hrun & Hin & Hidx & HR & _).
  exists records, rec. repeat split; assumption.
Defined.

Lemma export_entries_known first second b s :
  (b, s) ∈ [(0, first); (2, second)] ->
  Known (Peek (segment (export_world first second)) b) = true /\
  Known (Peek (segment (export_world first second)) (b + 1)) = true.
Proof.
  intros Hin. apply elem_of_cons in Hin as [[= -> _]|Hin]; [split; reflexivity|].
  apply list_elem_of_singleton in Hin. injection Hin as -> _. split; reflexivity.
Qed.

(** Four written cells for two entries, and three. *)
Lemma GetAirPrivateInput_succeeds_iff_witness :
  snd (fst (GetAirPrivateInput [(0, test_sig test_r_pos); (2, test_sig test_r_neg)]
              (export_world (test_sig test_r_pos) (test_sig test_r_neg)))) = None /\
  snd (fst (GetAirPrivateInput [(0, test_sig test_r_pos); (2, test_sig test_r_neg)]
              world_three_cells)) <> None.
Proof.
  split.
  - exact (proj2 (GetAirPrivateInput_succeeds_iff
                    [(0, test_sig test_r_pos); (2, test_sig test_r_neg)]
                    (export_world (test_sig test_r_pos) (test_sig test_r_neg)) eq_refl)
                 (export_entries_known _ _)).
  - intros Hnone.
    destruct (proj1 (GetAirPrivateInput_succeeds_iff
                       [(0, test_sig test_r_pos); (2, test_sig test_r_neg)]
                       world_three_cells eq_refl)
                    Hnone 2 (test_sig test_r_neg)) as [_ Hmsg].
    + apply elem_of_cons. right. apply list_elem_of_singleton. reflexivity.
    + discriminate Hmsg.
Defined.
